(** * Wordle Italiano: the guess evaluator of [POST /api/guess]

    A shallow embedding of the route handler in [server.js] (the
    validation guard, the upper-casing and the two marking loops) and of
    the win test of [game.js], with the properties of the evaluator
    proved over it. *)

From Stdlib Require Import String Ascii.
From stdpp Require Import base numbers list option gmap sorting.

Open Scope Z_scope.

(** ** JavaScript values used by the handler *)

(** A JavaScript string is a sequence of UTF-16 code units; [.length]
    counts code units and [.split('')] cuts between them. *)
Abbreviation jsstring := (list N).

(** An ASCII string literal of the development, as code units. *)
Definition js (s : string) : jsstring :=
  map N_of_ascii (list_ascii_of_string s).

(** What an element read [arr[i]] of [targetArr] or [guessArr] can be: a
    one-unit string, [null] once the slot is marked as used, or
    [undefined] when [i] is past the end of the array. *)
Inductive slot : Type :=
  | Undefined
  | Null
  | Chr (c : N).

#[global] Instance slot_eq_dec : EqDecision slot.
Proof. solve_decision. Defined.

(** The three labels written into [result]. *)
Inductive label : Type :=
  | absent
  | correct
  | present.

#[global] Instance label_eq_dec : EqDecision label.
Proof. solve_decision. Defined.

(** The two replies of the handler: [res.status(400).json({ error })] and
    [res.json({ result, guess })]. *)
Inductive response : Type :=
  | Status400 (error : string)
  | Status200 (result : list label) (guess : list N).

(** [arr[i]]: reading past the end gives [undefined]. *)
Definition get (arr : list slot) (i : nat) : slot :=
  default Undefined (arr !! i).

(** [arr.indexOf(x)]: the first index whose element is strictly equal to
    [x], or [-1]. [k] is the index of the head of [arr]. *)
Fixpoint indexOf_from (arr : list slot) (x : slot) (k : nat) : Z :=
  match arr with
  | [] => -1
  | y :: arr' =>
      if decide (y = x) then Z.of_nat k else indexOf_from arr' x (S k)
  end.

Definition indexOf (arr : list slot) (x : slot) : Z := indexOf_from arr x 0.

(** [s.split('')] *)
Definition split (s : jsstring) : list slot := Chr <$> s.

(** ** [String.prototype.toUpperCase] *)

Definition isAscii (c : N) : bool := (c <? 128)%N.

Definition asciiUpper (c : N) : N :=
  if ((97 <=? c) && (c <=? 122))%N then (c - 32)%N else c.

(** The local variables of the handler that the two loops update. *)
Record locals : Type := Locals {
  result : list label;
  targetArr : list slot;
  guessArr : list slot
}.

(** [dati.result.every(r => r === 'correct')] in [inviaTentativo]. *)
Definition haVinto (dati_result : list label) : bool :=
  forallb (λ r, bool_decide (r = correct)) dati_result.

(** Body of the first loop, lines 153-157. The two writes [targetArr[i]
    = null] and [guessArr[i] = null] sit under the test, where [i] is
    inside both arrays (a slot of [guessArr] read inside the loop is never
    [undefined]), so they never extend an array. *)
Definition pass1_body (st : locals) (i : nat) : locals :=
  if decide (get (guessArr st) i = get (targetArr st) i) then
    {| result := <[i:=correct]> (result st);
       targetArr := <[i:=Null]> (targetArr st);
       guessArr := <[i:=Null]> (guessArr st) |}
  else st.

(** Body of the second loop, lines 162-167. [idx] is an index of
    [targetArr] when it is not [-1]. *)
Definition pass2_body (st : locals) (i : nat) : locals :=
  if decide (get (guessArr st) i = Null) then st
  else
    let idx := indexOf (targetArr st) (get (guessArr st) i) in
    if decide (idx ≠ -1) then
      {| result := <[i:=present]> (result st);
         targetArr := <[Z.to_nat idx:=Null]> (targetArr st);
         guessArr := guessArr st |}
    else st.

(** [for (let i = 0; i < guessArr.length; i++) body]; neither body
    changes the length of [guessArr]. *)
Definition for_each_index (body : locals → nat → locals) (st : locals)
  : locals :=
  foldl body st (seq 0 (length (guessArr st))).

(** Lines 147-168: the evaluation of the upper-cased words. *)
Definition evaluate (guessUpper targetUpper : jsstring) : list label :=
  let st0 := {| result := replicate (length guessUpper) absent;
                targetArr := split targetUpper;
                guessArr := split guessUpper |} in
  let st1 := for_each_index pass1_body st0 in
  let st2 := for_each_index pass2_body st1 in
  result st2.

(** [!v] for a body field that is a string, or is missing ([None]): the
    empty string, [undefined] and [null] are falsy. *)
Definition falsy (v : option jsstring) : bool :=
  match v with
  | None | Some [] => true
  | Some (_ :: _) => false
  end.

Section Handler.

(** [toUpperCase] is a built-in of the host. On a string made of ASCII
    code units it replaces [a]-[z] by [A]-[Z] and keeps every other
    unit. On a string with a unit outside ASCII the result comes from
    the Unicode case tables of the host, which are not fixed here:
    [unicodeUpperCase] stands for them, and nothing is assumed about
    it (not even that it keeps the length: the upper case of U+00DF
    is two units long). *)
Variable unicodeUpperCase : list N → list N.

Definition toUpperCase (s : jsstring) : jsstring :=
  if forallb isAscii s then asciiUpper <$> s else unicodeUpperCase s.

(** The handler of [POST /api/guess], lines 135-171. The documented
    body is [{ guess: string, target: string }]; a field left out of
    the body is [None]. [||] does not evaluate [guess.length] when a
    field is falsy. *)
Definition api_guess (guess target : option jsstring) : response :=
  match guess, target with
  | Some g, Some t =>
      if falsy guess || falsy target
         || negb (bool_decide (length g = length t))
      then Status400 "Dati non validi."
      else
        let guessUpper := toUpperCase g in
        let targetUpper := toUpperCase t in
        Status200 (evaluate guessUpper targetUpper) guessUpper
  | _, _ => Status400 "Dati non validi."
  end.

End Handler.

(** One table for the units outside ASCII, used for the concrete
    instances below: the accented letters U+00E0 to U+00FE of Latin-1
    (but the division sign U+00F7) go to their capitals, U+00DF goes to
    the two units of SS, and any other unit is kept. *)
Definition latin1UpperUnit (c : N) : list N :=
  if (c =? 223)%N then [83%N; 83%N]
  else if ((224 <=? c) && (c <=? 254) && negb (c =? 247))%N then [(c - 32)%N]
  else [asciiUpper c].

Definition latin1UpperCase (s : list N) : list N :=
  s ≫= latin1UpperUnit.

(** The words "città" and "CITTÀ" as code units. *)
Definition citta_lower : list N := [99; 105; 116; 116; 224]%N.
Definition citta_upper : list N := [67; 73; 84; 84; 192]%N.

(** The verdict sequence of a reply, when it carries one. *)
Definition verdicts (r : response) : option (list label) :=
  match r with
  | Status400 _ => None
  | Status200 res _ => Some res
  end.

(** ** The two-pass reference, following the specification

    The specification calls the labels exact, present and absent; exact
    is the label [correct] of the code. *)

(** Pass 1, the verdicts: position [i] is exact when [guess[i]] and
    [target[i]] are the same letter, and absent so far otherwise. *)
Fixpoint exact_marks (guess target : list N) : list label :=
  match guess, target with
  | [], _ => []
  | _ :: guess', [] => absent :: exact_marks guess' []
  | c :: guess', d :: target' =>
      (if decide (c = d) then correct else absent) :: exact_marks guess' target'
  end.

(** Pass 1, the target letters that are left once every positional match
    has consumed its target letter, in their order in the target. *)
Fixpoint unconsumed (guess target : list N) : list N :=
  match guess, target with
  | [], _ => target
  | _ :: _, [] => []
  | c :: guess', d :: target' =>
      if decide (c = d) then unconsumed guess' target'
      else d :: unconsumed guess' target'
  end.

(** Consuming the leftmost occurrence of [c] among the remaining letters. *)
Fixpoint consume (c : N) (remaining : list N) : list N :=
  match remaining with
  | [] => []
  | d :: remaining' =>
      if decide (d = c) then remaining' else d :: consume c remaining'
  end.

(** Pass 2: positions marked exact are kept; any other position is
    present when its letter is still among the remaining target letters,
    and then consumes the leftmost such letter; it is absent otherwise. *)
Fixpoint reference_pass2 (guess : list N) (marks : list label)
    (remaining : list N) : list label :=
  match guess, marks with
  | c :: guess', m :: marks' =>
      if decide (m = correct) then
        correct :: reference_pass2 guess' marks' remaining
      else if decide (c ∈ remaining) then
        present :: reference_pass2 guess' marks' (consume c remaining)
      else
        absent :: reference_pass2 guess' marks' remaining
  | _, _ => []
  end.

Definition reference (guess target : list N) : list label :=
  reference_pass2 guess (exact_marks guess target) (unconsumed guess target).

(** Number of occurrences of the letter [L] in a word. *)
Fixpoint occurrences (L : N) (w : list N) : nat :=
  match w with
  | [] => 0%nat
  | c :: w' => ((if decide (c = L) then 1 else 0) + occurrences L w')%nat
  end.

(** Number of positions whose guess letter is [L] and whose verdict is
    exact or present. *)
Fixpoint credited (L : N) (guess : list N) (res : list label) : nat :=
  match guess, res with
  | c :: guess', v :: res' =>
      ((if decide (c = L ∧ v ≠ absent) then 1 else 0)
       + credited L guess' res')%nat
  | _, _ => 0%nat
  end.

(** ** State of the arrays between the loops *)

(** The letters still held by an array: the slots that are not [null]. *)
Definition chars (arr : list slot) : list N :=
  omap (λ s, match s with Chr c => Some c | _ => None end) arr.

(** [guessArr] after the first loop: a slot is [null] exactly where the
    mark is [correct]. *)
Definition guess_slots (guess : list N) (marks : list label) : list slot :=
  zip_with (λ c m, if decide (m = correct) then Null else Chr c) guess marks.

(** [targetArr] after the first loop. *)
Fixpoint target_slots (guess target : list N) : list slot :=
  match guess, target with
  | [], _ => Chr <$> target
  | _ :: _, [] => []
  | c :: guess', d :: target' =>
      (if decide (c = d) then Null else Chr d) :: target_slots guess' target'
  end.

(** ** Counting for the evaluator *)

(** Number of positions whose guess letter is [L] and whose mark is not
    [correct]: the occurrences of [L] that pass 2 still has to place. *)
Fixpoint pending (L : N) (guess : list N) (marks : list label) : nat :=
  match guess, marks with
  | c :: guess', m :: marks' =>
      ((if decide (c = L ∧ m ≠ correct) then 1 else 0)
       + pending L guess' marks')%nat
  | _, _ => 0%nat
  end.

(** ** The colours of the keyboard, [game.js]

    [colorTasti] is an object used as a map from a key to its colour. Its
    keys are the values of [parola[i]]: a one-unit string, or [undefined]
    (the property named "undefined") when [i] is past the end of
    [parola]; [None] stands for the latter. *)

(** [arr.forEach((x, i) => ...)] threading the state that the callback
    updates; [i] is the index of the head of [arr]. *)
Fixpoint forEach_from {A St : Type} (f : St → A → nat → St) (arr : list A)
    (i : nat) (s : St) : St :=
  match arr with
  | [] => s
  | x :: arr' => forEach_from f arr' (S i) (f s x i)
  end.

Definition forEach {A St : Type} (f : St → A → nat → St) (arr : list A)
    (s : St) : St :=
  forEach_from f arr 0 s.

(** The callback of [aggiornaTastiera], lines 335-346 of [game.js].
    [!colorePrecedente] holds when the key has no colour yet. *)
Definition aggiorna_tasto (parola : jsstring)
    (colorTasti : gmap (option N) label) (esito : label) (i : nat)
  : gmap (option N) label :=
  let lettera := parola !! i in
  let colorePrecedente := colorTasti !! lettera in
  if bool_decide (esito = correct)
     || (bool_decide (esito = present)
         && negb (bool_decide (colorePrecedente = Some correct)))
     || bool_decide (colorePrecedente = None)
  then <[lettera := esito]> colorTasti
  else colorTasti.

(** [aggiornaTastiera(parola, risultati)], the update of [colorTasti]
    (the second loop only repaints the keys from the map). *)
Definition aggiornaTastiera (parola : jsstring) (risultati : list label)
    (colorTasti : gmap (option N) label) : gmap (option N) label :=
  forEach (aggiorna_tasto parola) risultati colorTasti.

(** The table [priority] of [updateKeyStates]. *)
Definition priority (res : label) : Z :=
  match res with
  | correct => 3
  | present => 2
  | absent => 1
  end.

(** The callback of [updateKeyStates]: [current ? priority[current] : 0]
    and the test [priority[res] > currPri]. *)
Definition update_key (guess : jsstring) (keyStates : gmap (option N) label)
    (res : label) (i : nat) : gmap (option N) label :=
  let letter := guess !! i in
  let current := keyStates !! letter in
  let currPri := match current with
                 | Some c => priority c
                 | None => 0
                 end in
  if bool_decide (priority res > currPri) then <[letter := res]> keyStates
  else keyStates.

Definition updateKeyStates (guess : jsstring) (result : list label)
    (keyStates : gmap (option N) label) : gmap (option N) label :=
  forEach (update_key guess) result keyStates.

(** The rank of the colour of a key: [0] for a key without colour. *)
Definition rango (colore : option label) : Z :=
  match colore with
  | Some c => priority c
  | None => 0
  end.

(** The best rank among the verdicts of the positions from [i] on whose
    letter is the key [k]. *)
Fixpoint migliore (k : option N) (parola : jsstring) (risultati : list label)
    (i : nat) : Z :=
  match risultati with
  | [] => 0
  | esito :: risultati' =>
      if decide (parola !! i = k)
      then Z.max (priority esito) (migliore k parola risultati' (S i))
      else migliore k parola risultati' (S i)
  end.

(** ** [String.prototype.trim] and [split] on a separator *)

(** The code units that [trim] removes: the white space and the line
    terminators of ECMAScript. *)
Definition isWhiteSpace (c : N) : bool :=
  bool_decide (c ∈ [9; 10; 11; 12; 13; 32; 160; 5760; 8232; 8233; 8239;
                    8287; 12288; 65279]%N)
  || ((8192 <=? c) && (c <=? 8202))%N.

Fixpoint trimStart (s : jsstring) : jsstring :=
  match s with
  | [] => []
  | c :: s' => if isWhiteSpace c then trimStart s' else s
  end.

Definition trimEnd (s : jsstring) : jsstring :=
  reverse (trimStart (reverse s)).

Definition trim (s : jsstring) : jsstring := trimEnd (trimStart s).

(** [s.split(sep)] for a separator of one code unit: the pieces between
    the separators, one piece (the empty one) for the empty string. *)
Fixpoint split_on (sep : N) (s : jsstring) : list jsstring :=
  match s with
  | [] => [[]]
  | c :: s' =>
      if decide (c = sep) then [] :: split_on sep s'
      else match split_on sep s' with
           | piece :: pieces => (c :: piece) :: pieces
           | [] => [[c]]
           end
  end.

(** ** The saved games, [POST /api/results] and [GET /api/leaderboard]

    [results.json] holds the array that [readResults] parses and
    [saveResults] writes back; it is the list of records threaded through
    the handlers. The client sends [attempts] and [time] as integers
    ([rigaCorrente] and [secondiPassati]); [difficulty] and [won] are
    stored as sent, [None] for a field left out. *)
Record record : Type := Record_ {
  id_ : Z;
  player : jsstring;
  word : jsstring;
  attempts : Z;
  time : Z;
  difficulty : option Z;
  won : option bool;
  date : jsstring
}.

Inductive results_reply : Type :=
  | Results400 (error : string)
  | Results201 (message : string) (newRecord : record).

(** The handler of [POST /api/results], lines 178-203. [now] and [iso]
    are the readings [Date.now()] and [new Date().toISOString()] of the
    clock. The reply comes with the new content of [results.json]. *)
Definition api_results (now : Z) (iso : jsstring)
    (body_player body_word : option jsstring)
    (body_attempts body_time body_difficulty : option Z)
    (body_won : option bool) (results : list record)
  : results_reply * list record :=
  match body_player, body_word, body_attempts, body_time with
  | Some p, Some w, Some a, Some t =>
      if falsy body_player || falsy body_word then
        (Results400 "Dati mancanti.", results)
      else
        let newRecord :=
          {| id_ := now; player := trim p; word := w; attempts := a;
             time := t; difficulty := body_difficulty; won := body_won;
             date := iso |} in
        (Results201 "Risultato salvato!" newRecord, results ++ [newRecord])
  | _, _, _, _ => (Results400 "Dati mancanti.", results)
  end.

(** The comparison function of the leaderboard, lines 218-221. *)
Definition compare (a b : record) : Z :=
  if decide (attempts a ≠ attempts b) then attempts a - attempts b
  else time a - time b.

(** [a] does not come after [b] in the order of the leaderboard. *)
Definition before (a b : record) : Prop := compare a b ≤ 0.

(** [arr.sort(cmp)]. The sort of the host is stable, and [compare] orders
    the records by a total preorder, so the sorted array is determined:
    each record, from the last to the first, is put in front of the first
    sorted record that does not come before it. *)
Fixpoint sort_insert (cmp : record → record → Z) (x : record)
    (sorted : list record) : list record :=
  match sorted with
  | [] => [x]
  | y :: sorted' =>
      if bool_decide (cmp x y ≤ 0) then x :: y :: sorted'
      else y :: sort_insert cmp x sorted'
  end.

Fixpoint sort (cmp : record → record → Z) (arr : list record)
  : list record :=
  match arr with
  | [] => []
  | x :: arr' => sort_insert cmp x (sort cmp arr')
  end.

(** [arr.slice(0, fine)]: a negative [fine] counts from the end. *)
Definition slice0 {A : Type} (arr : list A) (fine : Z) : list A :=
  let len := Z.of_nat (length arr) in
  let k := if bool_decide (fine < 0) then Z.max (len + fine) 0
           else Z.min fine len in
  take (Z.to_nat k) arr.

(** The handler of [GET /api/leaderboard], lines 210-225.
    [parsed] is the value of [parseInt(req.query.limit)], [None] for
    [NaN]; [|| 20] replaces [NaN] and [0]. [r.won] is truthy for [true]. *)
Definition api_leaderboard (parsed : option Z) (results : list record)
  : list record :=
  let limit := match parsed with
               | Some n => if bool_decide (n = 0) then 20 else n
               | None => 20
               end in
  slice0 (sort compare (filter (λ r, won r = Some true) results)) limit.

(** ** The words, [getWords] and [GET /api/word] *)

Inductive word_reply : Type :=
  | Word400 (error : string)
  | Word500 (error : string)
  | Word200 (word : jsstring) (length : nat).

Section Words.

Variable unicodeUpperCase : list N → list N.

(** [getWords(length)], lines 60-68, on the content of the file
    [words_<length>.txt]. *)
Definition getWords (len : Z) (content : jsstring) : list jsstring :=
  filter (λ w, Z.of_nat (length w) = len)
    ((λ w, toUpperCase unicodeUpperCase (trim w)) <$> split_on 10 content).

(** The handler of [GET /api/word], lines 106-127. [parsed] is the
    value of [parseInt(req.query.difficulty)], [None] for [NaN];
    [readFile] gives the content of the words file of a length, [None]
    when reading it throws; [k] is the index
    [Math.floor(Math.random() * words.length)] drawn by [getRandomWord].
    An error thrown inside [try] (by the read, or by [word.length] on
    [undefined]) is answered by the [catch]. *)
Definition api_word (parsed : option Z) (readFile : Z → option jsstring)
    (k : nat) : word_reply :=
  match parsed with
  | Some d =>
      if bool_decide (d ∈ [5; 6; 8]) then
        match readFile d with
        | Some content =>
            let words := getWords d content in
            if bool_decide (length words = 0%nat) then
              Word500 "Nessuna parola trovata per questa difficoltà."
            else
              match words !! k with
              | Some w => Word200 w (length w)
              | None => Word500 "Errore del server."
              end
        | None => Word500 "Errore del server."
        end
      else Word400 "Difficoltà non valida. Usa 5, 6 o 8."
  | None => Word400 "Difficoltà non valida. Usa 5, 6 o 8."
  end.

End Words.

(** ** Typing a row, [game.js]

    The variables of the game that the key handlers read and write. A
    key or a letter is a string; [difficolta] is a number ([null], which
    these handlers compare like [0], is [0] here). *)
Record gioco : Type := Gioco {
  parolaSegreta : jsstring;
  difficolta : nat;
  maxTentativi : nat;
  rigaCorrente : nat;
  colonnaCorrente : nat;
  tentativo : list jsstring;
  partitaFinita : bool
}.

(** [/^[A-Z]$/.test(tasto)] *)
Definition isLetterKey (tasto : jsstring) : bool :=
  match tasto with
  | [c] => ((65 <=? c) && (c <=? 90))%N
  | _ => false
  end.

(** The key of the backspace, U+232B, and the key INVIO. *)
Definition tasto_cancella : jsstring := [9003%N].
Definition tasto_invio : jsstring := js "INVIO".

(** The tiles that [costruisciGriglia] creates, lines 139-151: one for
    each row below [maxTentativi] and column below [difficolta]. *)
Definition costruisciGriglia (righe colonne : nat) (r c : nat) : bool :=
  bool_decide (r < righe)%nat && bool_decide (c < colonne)%nat.

Section Tasti.

(** The page: whether [getTile(r, c)] finds a tile. Writing to the tile
    that is not there throws, which ends the handler where it is. *)
Variable getTile : nat → nat → bool.

(** [aggiungiLettera(lettera)], lines 225-236. *)
Definition aggiungiLettera (st : gioco) (lettera : jsstring) : gioco :=
  if bool_decide (difficolta st ≤ colonnaCorrente st)%nat then st
  else
    let st1 := {| parolaSegreta := parolaSegreta st;
                  difficolta := difficolta st;
                  maxTentativi := maxTentativi st;
                  rigaCorrente := rigaCorrente st;
                  colonnaCorrente := colonnaCorrente st;
                  tentativo := tentativo st ++ [lettera];
                  partitaFinita := partitaFinita st |} in
    if getTile (rigaCorrente st) (colonnaCorrente st) then
      {| parolaSegreta := parolaSegreta st1;
         difficolta := difficolta st1;
         maxTentativi := maxTentativi st1;
         rigaCorrente := rigaCorrente st1;
         colonnaCorrente := S (colonnaCorrente st1);
         tentativo := tentativo st1;
         partitaFinita := partitaFinita st1 |}
    else st1.

(** [cancellaLettera()], lines 238-247: the two variables are updated
    before the tile is touched. *)
Definition cancellaLettera (st : gioco) : gioco :=
  if bool_decide (colonnaCorrente st ≤ 0)%nat then st
  else
    {| parolaSegreta := parolaSegreta st;
       difficolta := difficolta st;
       maxTentativi := maxTentativi st;
       rigaCorrente := rigaCorrente st;
       colonnaCorrente := colonnaCorrente st - 1;
       tentativo := removelast (tentativo st);
       partitaFinita := partitaFinita st |}.

(** [inviaTentativo()] up to its first [await], lines 252-268: the body
    [{ guess, target }] of the request it sends, or [None] when the row
    is too short. No variable is written before the reply. *)
Definition inviaTentativo_richiesta (st : gioco)
  : option (jsstring * jsstring) :=
  if bool_decide (colonnaCorrente st < difficolta st)%nat then None
  else Some (concat (tentativo st), parolaSegreta st).

(** [gestisciTasto(tasto)], lines 214-220, with the request sent, if
    any. *)
Definition gestisciTasto (st : gioco) (tasto : jsstring)
  : gioco * option (jsstring * jsstring) :=
  if partitaFinita st then (st, None)
  else if bool_decide (tasto = tasto_cancella) then (cancellaLettera st, None)
  else if bool_decide (tasto = tasto_invio) then
    (st, inviaTentativo_richiesta st)
  else if isLetterKey tasto then (aggiungiLettera st tasto, None)
  else (st, None).

End Tasti.

(** What the key handlers keep true once [avviaPartita] has reset the
    variables: the column is the number of letters typed, the row is not
    longer than the word, only letters from A to Z are typed, and an
    unfinished game is on a row of the grid. *)
Definition riga_valida (st : gioco) : Prop :=
  colonnaCorrente st = length (tentativo st)
  ∧ (colonnaCorrente st ≤ difficolta st)%nat
  ∧ Forall (λ l, isLetterKey l = true) (tentativo st)
  ∧ (partitaFinita st = false → (rigaCorrente st < maxTentativi st)%nat).

(** ** Sample data for the concrete instances *)

(** Two won games and a lost one, as saved by three accepted requests. *)
Definition partita_anna : record :=
  {| id_ := 1000; player := js "Anna"; word := js "LIBRO"; attempts := 4;
     time := 95; difficulty := Some 5; won := Some true;
     date := js "2024-05-01T10:00:00.000Z" |}.

Definition partita_bruno : record :=
  {| id_ := 2000; player := js "Bruno"; word := js "CARTA"; attempts := 3;
     time := 120; difficulty := Some 5; won := Some true;
     date := js "2024-05-01T11:00:00.000Z" |}.

Definition partita_carla : record :=
  {| id_ := 3000; player := js "Carla"; word := js "SOLE"; attempts := 6;
     time := 300; difficulty := Some 5; won := Some false;
     date := js "2024-05-01T12:00:00.000Z" |}.

(** A words file of two lines with CRLF line ends. *)
Definition file_parole : list N :=
  js "carta" ++ [13; 10]%N ++ js "libro" ++ [13; 10]%N.

(** A game on the second row of a grid of 6 rows and 5 columns, with
    ROBOT typed. *)
Definition partita_in_corso : gioco :=
  {| parolaSegreta := js "LIBRO"; difficolta := 5; maxTentativi := 6;
     rigaCorrente := 1; colonnaCorrente := 5;
     tentativo := [js "R"; js "O"; js "B"; js "O"; js "T"];
     partitaFinita := false |}.

(** The same game with only RO typed. *)
Definition partita_due_lettere : gioco :=
  {| parolaSegreta := js "LIBRO"; difficolta := 5; maxTentativi := 6;
     rigaCorrente := 1; colonnaCorrente := 2;
     tentativo := [js "R"; js "O"];
     partitaFinita := false |}.

(** ** The reference on the scenarios of the specification *)

Example reference_libro :
  reference (js "ROBOT") (js "LIBRO")
  = [present; present; correct; absent; absent].
Proof. reflexivity. Qed.

Example reference_stare :
  reference (js "ERATS") (js "STARE")
  = [present; present; correct; present; present].
Proof. reflexivity. Qed.

(** ** Array reads and writes *)

Lemma snoc_app {A} (l1 l2 : list A) (x : A) :
  l1 ++ x :: l2 = (l1 ++ [x]) ++ l2.
Proof. by rewrite <- app_assoc. Qed.

Lemma get_middle (l1 l2 : list slot) (y : slot) (k : nat) :
  length l1 = k → get (l1 ++ y :: l2) k = y.
Proof. intros Hk. unfold get. by rewrite list_lookup_middle. Qed.

Lemma get_past (l : list slot) (k : nat) :
  (length l ≤ k)%nat → get l k = Undefined.
Proof. intros Hk. unfold get. by rewrite lookup_ge_None_2. Qed.

Lemma insert_middle {A} (l1 l2 : list A) (x y : A) (k : nat) :
  length l1 = k → <[k:=x]> (l1 ++ y :: l2) = l1 ++ x :: l2.
Proof.
  intros <-. rewrite insert_app_r_alt by lia.
  by rewrite Nat.sub_diag.
Qed.

Lemma split_length (s : list N) : length (split s) = length s.
Proof. apply length_fmap. Qed.

Lemma target_slots_nil (guess : list N) : target_slots guess [] = [].
Proof. by destruct guess. Qed.

(** The writes of the two loops stay inside the arrays. In the first
    loop the test holds at an index of [guessArr] only when [targetArr]
    has a slot there too; in the second loop [idx] is an index of
    [targetArr] whenever it is not [-1]. Neither body changes the length
    of [guessArr], the bound of both loops. *)
Lemma pass1_write_in_range (st : locals) (i : nat) :
  get (guessArr st) i ≠ Undefined →
  get (guessArr st) i = get (targetArr st) i →
  (i < length (guessArr st))%nat ∧ (i < length (targetArr st))%nat.
Proof.
  intros Hg Heq. rewrite Heq in Hg. unfold get in *.
  split; apply lookup_lt_is_Some.
  - destruct (guessArr st !! i); [eauto|]. by rewrite <- Heq in Hg.
  - destruct (targetArr st !! i); [eauto|done].
Qed.

Lemma indexOf_from_range (arr : list slot) (x : slot) (k : nat) :
  indexOf_from arr x k = -1
  ∨ Z.of_nat k ≤ indexOf_from arr x k < Z.of_nat (k + length arr).
Proof.
  revert k. induction arr as [|y arr IH]; intros k; cbn; [auto|].
  destruct (decide (y = x)); [right; lia|].
  destruct (IH (S k)) as [->|?]; [auto|right; lia].
Qed.

Lemma indexOf_in_range (arr : list slot) (x : slot) :
  indexOf arr x ≠ -1 → (Z.to_nat (indexOf arr x) < length arr)%nat.
Proof.
  intros Hidx. unfold indexOf in *.
  destruct (indexOf_from_range arr x 0) as [?|?]; [done|lia].
Qed.

Lemma pass1_body_length (st : locals) (i : nat) :
  length (guessArr (pass1_body st i)) = length (guessArr st).
Proof.
  unfold pass1_body. destruct (decide _); [|done].
  apply length_insert.
Qed.

Lemma pass2_body_length (st : locals) (i : nat) :
  length (guessArr (pass2_body st i)) = length (guessArr st).
Proof.
  unfold pass2_body. destruct (decide _); [done|].
  by destruct (decide _).
Qed.

(** ** The first loop *)

(** The loop, started at index [k] with the first [k] slots already
    visited, leaves the arrays described by [exact_marks],
    [target_slots] and [guess_slots]. *)
Lemma pass1_loop (guess target : list N) :
  ∀ (k : nat) (pre_r : list label) (pre_t pre_g : list slot),
    length pre_r = k → length pre_g = k →
    (length pre_t = k ∨ (target = [] ∧ (length pre_t ≤ k)%nat)) →
    foldl pass1_body
      {| result := pre_r ++ replicate (length guess) absent;
         targetArr := pre_t ++ split target;
         guessArr := pre_g ++ split guess |}
      (seq k (length guess))
    = {| result := pre_r ++ exact_marks guess target;
         targetArr := pre_t ++ target_slots guess target;
         guessArr := pre_g ++ guess_slots guess (exact_marks guess target) |}.
Proof.
  unfold split. revert target.
  induction guess as [|c guess IH]; intros target k pre_r pre_t pre_g Hr Hg Ht.
  - reflexivity.
  - cbn [length seq foldl replicate fmap list_fmap].
    unfold pass1_body at 2. cbn [result targetArr guessArr].
    rewrite (get_middle pre_g) by done.
    destruct target as [|d target].
    + assert (length pre_t ≤ k)%nat as Hle by (destruct Ht as [->|[_ ?]]; lia).
      rewrite get_past by (rewrite length_app; simpl; lia).
      destruct (decide (Chr c = Undefined)) as [?|_]; [done|].
      rewrite (snoc_app pre_r), (snoc_app pre_g).
      rewrite (IH [] (S k)) by (rewrite ?length_app; simpl; auto with lia).
      cbn [exact_marks guess_slots zip_with target_slots].
      rewrite target_slots_nil.
      destruct (decide (absent = correct)) as [?|_]; [done|].
      by rewrite <- !snoc_app.
    + destruct Ht as [Ht|[? _]]; [|done].
      cbn [fmap list_fmap].
      rewrite (get_middle pre_t) by done.
      cbn [exact_marks guess_slots zip_with target_slots].
      destruct (decide (c = d)) as [->|Hcd].
      * destruct (decide (Chr d = Chr d)) as [_|?]; [|done].
        rewrite !insert_middle by done.
        rewrite (snoc_app pre_r), (snoc_app pre_g), (snoc_app pre_t).
        rewrite (IH target (S k)) by (rewrite ?length_app; simpl; auto with lia).
        destruct (decide (correct = correct)) as [_|?]; [|done].
        by rewrite <- !snoc_app.
      * destruct (decide (Chr c = Chr d)) as [?|_]; [congruence|].
        rewrite (snoc_app pre_r), (snoc_app pre_g), (snoc_app pre_t).
        rewrite (IH target (S k)) by (rewrite ?length_app; simpl; auto with lia).
        destruct (decide (absent = correct)) as [?|_]; [done|].
        by rewrite <- !snoc_app.
Qed.

(** ** [indexOf] on an array with consumed slots *)

Lemma indexOf_from_absent (arr : list slot) (c : N) (k : nat) :
  c ∉ chars arr → indexOf_from arr (Chr c) k = -1.
Proof.
  revert k. induction arr as [|y arr IH]; intros k Hc; [done|].
  cbn [indexOf_from]. destruct (decide (y = Chr c)) as [->|Hy].
  - exfalso. apply Hc. cbn. left.
  - apply IH. intros Hin. apply Hc.
    destruct y; cbn; try done. by right.
Qed.

(** When the letter is still there, [indexOf] returns an index of the
    array, and marking that slot consumes the leftmost occurrence. *)
Lemma indexOf_from_found (arr : list slot) (c : N) (k : nat) :
  c ∈ chars arr →
  ∃ j : nat, indexOf_from arr (Chr c) k = Z.of_nat (k + j)
    ∧ arr !! j = Some (Chr c)
    ∧ chars (<[j:=Null]> arr) = consume c (chars arr).
Proof.
  revert k. induction arr as [|y arr IH]; intros k Hc.
  - by apply elem_of_nil in Hc.
  - cbn [indexOf_from]. destruct (decide (y = Chr c)) as [->|Hy].
    + exists 0%nat. rewrite Nat.add_0_r. cbn.
      by destruct (decide (c = c)).
    + assert (c ∈ chars arr) as Hc'.
      { destruct y as [| |d]; cbn in Hc; try done.
        apply elem_of_cons in Hc as [->|?]; done. }
      destruct (IH (S k) Hc') as (j & Hj & Hlook & Hchars).
      exists (S j). split; [rewrite Hj; f_equal; lia|]. split; [done|].
      destruct y as [| |d]; cbn; cbn in Hchars; try done.
      destruct (decide (d = c)) as [->|_]; [done|]. by f_equal.
Qed.

(** ** The second loop *)

Lemma pass2_loop (gs : list N) :
  ∀ (marks : list label) (k : nat) (pre_r : list label)
    (pre_g tarr : list slot),
    length marks = length gs →
    Forall (λ m, m = correct ∨ m = absent) marks →
    length pre_r = k → length pre_g = k →
    result (foldl pass2_body
      {| result := pre_r ++ marks;
         targetArr := tarr;
         guessArr := pre_g ++ guess_slots gs marks |}
      (seq k (length gs)))
    = pre_r ++ reference_pass2 gs marks (chars tarr).
Proof.
  induction gs as [|c gs IH]; intros marks k pre_r pre_g tarr Hlen Hm Hr Hg.
  - by destruct marks.
  - destruct marks as [|m marks]; [done|].
    apply Forall_cons_1 in Hm as [Hm Hms]. injection Hlen as Hlen.
    cbn [length seq foldl guess_slots zip_with reference_pass2].
    unfold pass2_body at 2. cbn [result targetArr guessArr].
    rewrite (get_middle pre_g) by done.
    destruct (decide (m = correct)) as [->|Hmc].
    + destruct (decide (Null = Null)) as [_|?]; [|done].
      rewrite (snoc_app pre_r), (snoc_app pre_g).
      rewrite (IH marks (S k)) by (rewrite ?length_app; simpl; auto with lia).
      by rewrite <- snoc_app.
    + destruct Hm as [?| ->]; [done|].
      destruct (decide (Chr c = Null)) as [?|_]; [done|].
      unfold indexOf. destruct (decide (c ∈ chars tarr)) as [Hc|Hc].
      * destruct (indexOf_from_found tarr c 0 Hc) as (j & -> & _ & Hchars).
        destruct (decide (Z.of_nat (0 + j) ≠ -1)) as [_|?]; [|lia].
        rewrite Nat.add_0_l, Nat2Z.id, insert_middle by done.
        rewrite (snoc_app pre_r), (snoc_app pre_g).
        rewrite (IH marks (S k)) by (rewrite ?length_app; simpl; auto with lia).
        by rewrite Hchars, <- snoc_app.
      * rewrite indexOf_from_absent by done.
        destruct (decide (-1 ≠ -1)) as [?|_]; [done|].
        rewrite (snoc_app pre_r), (snoc_app pre_g).
        rewrite (IH marks (S k)) by (rewrite ?length_app; simpl; auto with lia).
        by rewrite <- snoc_app.
Qed.

Lemma exact_marks_length (guess target : list N) :
  length (exact_marks guess target) = length guess.
Proof.
  revert target. induction guess as [|c guess IH]; intros [|d target];
    cbn; by rewrite ?IH.
Qed.

Lemma exact_marks_Forall (guess target : list N) :
  Forall (λ m, m = correct ∨ m = absent) (exact_marks guess target).
Proof.
  revert target. induction guess as [|c guess IH]; intros [|d target]; cbn;
    [done|done|constructor; auto|constructor; [case_decide; auto|auto]].
Qed.

Lemma chars_target_slots (guess target : list N) :
  chars (target_slots guess target) = unconsumed guess target.
Proof.
  revert target. induction guess as [|c guess IH]; intros target; cbn.
  - induction target as [|d target IHt]; cbn; [done|]. unfold chars in IHt. by rewrite IHt.
  - destruct target as [|d target]; [done|].
    cbn. destruct (decide (c = d)); cbn; fold (chars (target_slots guess target)); by rewrite IH.
Qed.

Lemma guess_slots_length (guess : list N) (marks : list label) :
  length marks = length guess → length (guess_slots guess marks) = length guess.
Proof. intros H. unfold guess_slots. rewrite length_zip_with. lia. Qed.

(** The loops of the handler compute the two-pass reference, whatever
    the lengths of the two words. *)
Lemma evaluate_reference (guessUpper targetUpper : list N) :
  evaluate guessUpper targetUpper = reference guessUpper targetUpper.
Proof.
  unfold evaluate, for_each_index. cbn [guessArr].
  rewrite !split_length.
  pose proof (pass1_loop guessUpper targetUpper 0 [] [] []) as H1.
  cbn [app] in H1. rewrite H1 by (cbn; auto). clear H1.
  cbn [guessArr]. rewrite guess_slots_length by apply exact_marks_length.
  pose proof (pass2_loop guessUpper (exact_marks guessUpper targetUpper) 0 [] []
    (target_slots guessUpper targetUpper)) as H2.
  cbn [app] in H2. rewrite H2; [| apply exact_marks_length | apply exact_marks_Forall | done..].
  by rewrite chars_target_slots.
Qed.

(** ** Properties of the reference *)

Lemma reference_pass2_length (gs : list N) :
  ∀ (marks : list label) (remaining : list N),
    length marks = length gs →
    length (reference_pass2 gs marks remaining) = length gs.
Proof.
  induction gs as [|c gs IH]; intros [|m marks] remaining Hlen; try done.
  injection Hlen as Hlen. cbn [reference_pass2].
  repeat case_decide; cbn; f_equal; auto.
Qed.

Lemma reference_length (guess target : list N) :
  length (reference guess target) = length guess.
Proof. apply reference_pass2_length, exact_marks_length. Qed.

(** Pass 2 neither adds nor removes an exact verdict. *)
Lemma reference_pass2_correct (gs : list N) :
  ∀ (marks : list label) (remaining : list N) (i : nat),
    length marks = length gs →
    reference_pass2 gs marks remaining !! i = Some correct
    ↔ marks !! i = Some correct.
Proof.
  induction gs as [|c gs IH]; intros [|m marks] remaining i Hlen; try done.
  injection Hlen as Hlen. cbn [reference_pass2].
  repeat case_decide; destruct i as [|i]; cbn; subst;
    try (by apply IH); split; congruence.
Qed.

Lemma exact_marks_correct (guess : list N) :
  ∀ (target : list N) (i : nat),
    exact_marks guess target !! i = Some correct
    ↔ (i < length guess)%nat ∧ guess !! i = target !! i.
Proof.
  induction guess as [|c guess IH]; intros target i.
  - cbn. split; [done|]. intros [? _]; lia.
  - destruct target as [|d target], i as [|i]; cbn.
    + split; [done|]. by intros [_ ?].
    + rewrite IH. rewrite lookup_nil. split; intros [? ?]; split; auto with lia.
    + case_decide; subst; split; try done; try (intros; split; [lia|done]).
      intros [_ ?]; congruence.
    + rewrite IH. split; intros [? ?]; split; auto with lia.
Qed.

Lemma exact_marks_same (w : list N) :
  exact_marks w w = replicate (length w) correct.
Proof.
  induction w as [|c w IH]; cbn; [done|].
  rewrite decide_True by done. by rewrite IH.
Qed.

Lemma reference_pass2_all_correct (gs : list N) (remaining : list N) :
  reference_pass2 gs (replicate (length gs) correct) remaining
  = replicate (length gs) correct.
Proof.
  induction gs as [|c gs IH]; cbn; [done|].
  rewrite decide_True by done. by rewrite IH.
Qed.

Lemma haVinto_replicate (n : nat) : haVinto (replicate n correct) = true.
Proof. unfold haVinto. induction n as [|n IH]; [done|]. cbn. by rewrite IH. Qed.

(** *** Counting *)

(** Splits on every decision left in a counting goal and closes the
    arithmetic; cases with contradictory decisions go by [intuition]. *)
Ltac count_cases :=
  repeat match goal with
         | |- context [decide ?P] => destruct (decide P)
         | H : context [decide ?P] |- _ => destruct (decide P)
         end;
  try lia; exfalso; intuition congruence.

Lemma occurrences_consume (L c : N) (remaining : list N) :
  c ∈ remaining →
  (occurrences L (consume c remaining) + (if decide (c = L) then 1 else 0)
   = occurrences L remaining)%nat.
Proof.
  induction remaining as [|d remaining IH]; intros Hc.
  - by apply elem_of_nil in Hc.
  - cbn. destruct (decide (d = c)) as [->|Hdc]; [lia|].
    apply elem_of_cons in Hc as [->|Hc]; [done|].
    cbn. specialize (IH Hc). lia.
Qed.

(** Every letter credited by pass 1 has consumed its own target letter. *)
Lemma credited_pass1 (L : N) (guess : list N) :
  ∀ target : list N,
    (credited L guess (exact_marks guess target)
     + occurrences L (unconsumed guess target)
     = occurrences L target)%nat.
Proof.
  induction guess as [|c guess IH]; intros target; [done|].
  destruct target as [|d target]; cbn.
  - specialize (IH []). destruct guess; cbn in *; count_cases.
  - specialize (IH target).
    destruct (decide (c = d)) as [->|Hcd]; cbn; count_cases.
Qed.

(** Every letter credited by pass 2 consumes one remaining target letter. *)
Lemma credited_pass2 (L : N) (gs : list N) :
  ∀ (marks : list label) (remaining : list N),
    Forall (λ m, m = correct ∨ m = absent) marks →
    (credited L gs (reference_pass2 gs marks remaining)
     ≤ credited L gs marks + occurrences L remaining)%nat.
Proof.
  induction gs as [|c gs IH]; intros [|m marks] remaining Hm;
    try (cbn; lia).
  apply Forall_cons_1 in Hm as [Hm Hms].
  cbn [reference_pass2].
  destruct (decide (m = correct)) as [->|Hmc].
  - cbn. specialize (IH marks remaining Hms).
    count_cases.
  - destruct Hm as [?| ->]; [done|].
    destruct (decide (c ∈ remaining)) as [Hc|Hc]; cbn.
    + specialize (IH marks (consume c remaining) Hms).
      pose proof (occurrences_consume L c remaining Hc).
      count_cases.
    + specialize (IH marks remaining Hms).
      count_cases.
Qed.

Lemma credited_reference (L : N) (guess target : list N) :
  (credited L guess (reference guess target) ≤ occurrences L target)%nat.
Proof.
  unfold reference.
  pose proof (credited_pass2 L guess (exact_marks guess target)
    (unconsumed guess target) (exact_marks_Forall guess target)).
  pose proof (credited_pass1 L guess target). lia.
Qed.

Lemma haVinto_Forall (r : list label) :
  haVinto r = true ↔ Forall (λ v, v = correct) r.
Proof.
  unfold haVinto. induction r as [|v r IH]; cbn [forallb].
  - split; [constructor|done].
  - rewrite andb_true_iff, bool_decide_eq_true, IH.
    split; [intros [? ?]; by constructor|].
    intros H. by apply Forall_cons_1 in H.
Qed.

(** ** Upper-casing ASCII strings *)

Lemma asciiUpper_isAscii (c : N) :
  isAscii c = true → isAscii (asciiUpper c) = true.
Proof.
  unfold isAscii, asciiUpper. rewrite !N.ltb_lt. intros Hc.
  destruct (_ && _)%N; lia.
Qed.

Lemma asciiUpper_idem (c : N) : asciiUpper (asciiUpper c) = asciiUpper c.
Proof.
  unfold asciiUpper.
  destruct ((97 <=? c)%N && (c <=? 122)%N) eqn:Hc; [|by rewrite Hc].
  apply andb_true_iff in Hc as [H1%N.leb_le H2%N.leb_le].
  assert ((97 <=? c - 32)%N = false) as -> by (apply N.leb_gt; lia).
  done.
Qed.

Lemma forallb_isAscii_upper (s : list N) :
  forallb isAscii s = true → forallb isAscii (asciiUpper <$> s) = true.
Proof.
  induction s as [|c s IH]; cbn; [done|].
  rewrite !andb_true_iff. intros [Hc Hs].
  split; [by apply asciiUpper_isAscii|by apply IH].
Qed.

(** ** The handler *)

Section Properties.

Variable unicodeUpperCase : list N → list N.

(** Past the guard, the reply carries the evaluation of the two
    upper-cased words and the upper-cased guess. *)
Lemma api_guess_accepts (g t : list N) :
  g ≠ [] → t ≠ [] → length g = length t →
  api_guess unicodeUpperCase (Some g) (Some t)
  = Status200
      (evaluate (toUpperCase unicodeUpperCase g)
                (toUpperCase unicodeUpperCase t))
      (toUpperCase unicodeUpperCase g).
Proof.
  intros Hg Ht Hlen. destruct g as [|c g], t as [|d t]; try done.
  unfold api_guess. cbn [falsy orb].
  by rewrite bool_decide_eq_true_2.
Qed.

Lemma api_guess_rejects_length (g t : list N) :
  length g ≠ length t →
  api_guess unicodeUpperCase (Some g) (Some t)
  = Status400 "Dati non validi.".
Proof.
  intros Hlen. unfold api_guess.
  rewrite (bool_decide_eq_false_2 _ Hlen). cbn [negb].
  by rewrite !orb_true_r.
Qed.

Lemma api_guess_rejects_falsy (guess target : option (list N)) :
  falsy guess = true ∨ falsy target = true →
  api_guess unicodeUpperCase guess target = Status400 "Dati non validi.".
Proof.
  intros H. unfold api_guess.
  destruct guess as [g|], target as [t|]; try done.
  by destruct H as [-> | ->]; rewrite ?orb_true_r.
Qed.

(** C1. For non-empty words of equal length, the reply carries the
    verdicts of the two-pass reference run on the upper-cased words:
    pass 1 marks the positional matches exact and consumes their target
    letters; pass 2 then gives each other position present, consuming
    the leftmost remaining target letter equal to its own, or absent
    when there is none. *)
Theorem api_guess_two_pass_reference (g t : list N) :
  g ≠ [] → t ≠ [] → length g = length t →
  api_guess unicodeUpperCase (Some g) (Some t)
  = Status200
      (reference (toUpperCase unicodeUpperCase g)
                 (toUpperCase unicodeUpperCase t))
      (toUpperCase unicodeUpperCase g).
Proof.
  intros Hg Ht Hlen.
  by rewrite api_guess_accepts, evaluate_reference.
Qed.

(** C2. For non-empty words of equal length and every letter [L], the
    positions whose guess letter is [L] and whose verdict is exact or
    present are at most as many as the occurrences of [L] in the
    target. *)
Theorem api_guess_duplicate_count (g t : list N) (L : N) :
  g ≠ [] → t ≠ [] → length g = length t →
  ∃ res : list label,
    api_guess unicodeUpperCase (Some g) (Some t)
    = Status200 res (toUpperCase unicodeUpperCase g)
    ∧ (credited L (toUpperCase unicodeUpperCase g) res
       ≤ occurrences L (toUpperCase unicodeUpperCase t))%nat.
Proof.
  intros Hg Ht Hlen. eexists. split; [by apply api_guess_accepts|].
  rewrite evaluate_reference. apply credited_reference.
Qed.

(** C3, as the code has it. The guess NONN against the target ANNO
    gives present, present, exact, absent: the only positional match is
    at index 2, and the O of the guess finds the O of the target. *)
Theorem api_guess_nonn_anno :
  api_guess unicodeUpperCase (Some (js "NONN")) (Some (js "ANNO"))
  = Status200 [present; present; correct; absent] (js "NONN").
Proof. reflexivity. Qed.

(** C4. Words of different lengths are refused with the client error
    and no verdict sequence. *)
Theorem api_guess_length_mismatch (g t : list N) :
  length g ≠ length t →
  api_guess unicodeUpperCase (Some g) (Some t)
  = Status400 "Dati non validi."
  ∧ verdicts (api_guess unicodeUpperCase (Some g) (Some t)) = None.
Proof.
  intros Hlen. by rewrite api_guess_rejects_length.
Qed.

(** C5. The guess ROBOT against the target LIBRO gives present,
    present, exact, absent, absent: the first O of the guess consumes
    the only O of the target. *)
Theorem api_guess_robot_libro :
  api_guess unicodeUpperCase (Some (js "ROBOT")) (Some (js "LIBRO"))
  = Status200 [present; present; correct; absent; absent] (js "ROBOT").
Proof. reflexivity. Qed.

(** C6. A non-empty word evaluated against itself gets exact at every
    position, so the win test of the client succeeds. *)
Theorem api_guess_self_wins (w : list N) :
  w ≠ [] →
  ∃ res : list label,
    api_guess unicodeUpperCase (Some w) (Some w)
    = Status200 res (toUpperCase unicodeUpperCase w)
    ∧ res = replicate (length (toUpperCase unicodeUpperCase w)) correct
    ∧ Forall (λ v, v = correct) res
    ∧ haVinto res = true.
Proof.
  intros Hw. eexists. split; [by apply api_guess_accepts|].
  rewrite evaluate_reference. unfold reference.
  rewrite exact_marks_same, reference_pass2_all_correct.
  split; [done|]. split; [|apply haVinto_replicate].
  apply haVinto_Forall, haVinto_replicate.
Qed.

Lemma toUpperCase_ascii (s : list N) :
  forallb isAscii s = true →
  toUpperCase unicodeUpperCase s = asciiUpper <$> s.
Proof. intros H. unfold toUpperCase. by rewrite H. Qed.

(** Upper-casing an ASCII string twice is upper-casing it once. *)
Lemma toUpperCase_ascii_idem (s : list N) :
  forallb isAscii s = true →
  toUpperCase unicodeUpperCase (toUpperCase unicodeUpperCase s)
  = toUpperCase unicodeUpperCase s.
Proof.
  intros H. rewrite (toUpperCase_ascii s H).
  rewrite toUpperCase_ascii by by apply forallb_isAscii_upper.
  rewrite <- list_fmap_compose. apply list_fmap_ext.
  intros i c _. apply asciiUpper_idem.
Qed.

(** C7. The reply depends on the two words only through their upper
    case: it carries the evaluation of the upper-cased words with the
    upper-cased guess, and two accepted requests whose words have the
    same upper case get the same reply. For ASCII words, sending the
    upper-cased words themselves gives that same reply. *)
Theorem api_guess_case_insensitive (g t g' t' : list N) :
  g ≠ [] → t ≠ [] → length g = length t →
  g' ≠ [] → t' ≠ [] → length g' = length t' →
  toUpperCase unicodeUpperCase g' = toUpperCase unicodeUpperCase g →
  toUpperCase unicodeUpperCase t' = toUpperCase unicodeUpperCase t →
  api_guess unicodeUpperCase (Some g) (Some t)
  = Status200
      (evaluate (toUpperCase unicodeUpperCase g)
                (toUpperCase unicodeUpperCase t))
      (toUpperCase unicodeUpperCase g)
  ∧ api_guess unicodeUpperCase (Some g') (Some t')
    = api_guess unicodeUpperCase (Some g) (Some t)
  ∧ (forallb isAscii g = true → forallb isAscii t = true →
     api_guess unicodeUpperCase
       (Some (toUpperCase unicodeUpperCase g))
       (Some (toUpperCase unicodeUpperCase t))
     = api_guess unicodeUpperCase (Some g) (Some t)).
Proof.
  intros Hg Ht Hlen Hg' Ht' Hlen' Hug Hut.
  rewrite !(api_guess_accepts g t), (api_guess_accepts g' t') by done.
  split; [done|]. split; [by rewrite Hug, Hut|].
  intros Hag Hat.
  rewrite api_guess_accepts.
  - by rewrite !toUpperCase_ascii_idem.
  - rewrite toUpperCase_ascii by done. by destruct g.
  - rewrite toUpperCase_ascii by done. by destruct t.
  - rewrite !toUpperCase_ascii by done. by rewrite !length_fmap.
Qed.

(** C8. A guess or a target of length 0 is refused with the client
    error and no verdict sequence, whatever the other field is. *)
Theorem api_guess_empty_input (guess target : option (list N)) :
  guess = Some [] ∨ target = Some [] →
  api_guess unicodeUpperCase guess target = Status400 "Dati non validi."
  ∧ verdicts (api_guess unicodeUpperCase guess target) = None.
Proof.
  intros H. rewrite api_guess_rejects_falsy; [done|].
  destruct H as [-> | ->]; auto.
Qed.

(** C9. For non-empty words of equal length, every position of the
    upper-cased guess carries one label, and that label is exact if and
    only if the upper-cased guess and target hold the same letter
    there. *)
Theorem api_guess_exact_iff (g t : list N) :
  g ≠ [] → t ≠ [] → length g = length t →
  ∃ res : list label,
    api_guess unicodeUpperCase (Some g) (Some t)
    = Status200 res (toUpperCase unicodeUpperCase g)
    ∧ length res = length (toUpperCase unicodeUpperCase g)
    ∧ ∀ (i : nat) (v : label),
        res !! i = Some v →
        (v = correct
         ↔ toUpperCase unicodeUpperCase g !! i
           = toUpperCase unicodeUpperCase t !! i).
Proof.
  intros Hg Ht Hlen. eexists. split; [by apply api_guess_accepts|].
  rewrite evaluate_reference. split; [apply reference_length|].
  intros i v Hv.
  assert (i < length (toUpperCase unicodeUpperCase g))%nat as Hi.
  { rewrite <- (reference_length _ (toUpperCase unicodeUpperCase t)).
    by eapply lookup_lt_Some. }
  pose proof (reference_pass2_correct (toUpperCase unicodeUpperCase g)
    (exact_marks (toUpperCase unicodeUpperCase g)
                 (toUpperCase unicodeUpperCase t))
    (unconsumed (toUpperCase unicodeUpperCase g)
                (toUpperCase unicodeUpperCase t)) i
    (exact_marks_length _ _)) as H2.
  fold (reference (toUpperCase unicodeUpperCase g)
                  (toUpperCase unicodeUpperCase t)) in H2.
  rewrite exact_marks_correct, Hv in H2.
  split.
  - intros ->. by apply H2.
  - intros Heq. assert (Some v = Some correct) by (apply H2; done).
    congruence.
Qed.

(** C10. The handler refuses a request exactly when a field is missing
    or empty or the two lengths differ; any two non-empty strings of
    the same length, whatever their code units, get a reply with one
    verdict per position of the upper-cased guess. *)
Theorem api_guess_error_iff :
  (∀ guess target : option (list N),
     (∃ e, api_guess unicodeUpperCase guess target = Status400 e)
     ↔ (guess = None ∨ guess = Some [] ∨ target = None ∨ target = Some []
        ∨ ∃ g t, guess = Some g ∧ target = Some t ∧ length g ≠ length t))
  ∧ (∀ g t : list N,
       g ≠ [] → t ≠ [] → length g = length t →
       ∃ res : list label,
         api_guess unicodeUpperCase (Some g) (Some t)
         = Status200 res (toUpperCase unicodeUpperCase g)
         ∧ length res = length (toUpperCase unicodeUpperCase g)).
Proof.
  split.
  - intros guess target. split.
    + intros [e He].
      destruct guess as [[|c g]|]; auto.
      destruct target as [[|d t]|]; auto 6.
      destruct (decide (length (c :: g) = length (d :: t))) as [Hlen|Hlen].
      * rewrite api_guess_accepts in He by done. discriminate.
      * do 4 right. by exists (c :: g), (d :: t).
    + intros H. exists "Dati non validi."%string.
      destruct H as [->|[->|[->|[->|(g & t & -> & -> & Hlen)]]]];
        try (by apply api_guess_rejects_falsy; auto).
      by apply api_guess_rejects_length.
  - intros g t Hg Ht Hlen. eexists. split; [by apply api_guess_accepts|].
    rewrite evaluate_reference. apply reference_length.
Qed.

End Properties.

(** ** Concrete instances *)

Example toUpperCase_citta :
  toUpperCase latin1UpperCase citta_lower = citta_upper.
Proof. reflexivity. Qed.

Lemma api_guess_two_pass_reference_witness :
  js "robot" ≠ [] ∧ js "libro" ≠ []
  ∧ length (js "robot") = length (js "libro")
  ∧ api_guess latin1UpperCase (Some (js "robot")) (Some (js "libro"))
    = Status200 (reference (js "ROBOT") (js "LIBRO")) (js "ROBOT").
Proof.
  assert (js "robot" ≠ []) as H1 by discriminate.
  assert (js "libro" ≠ []) as H2 by discriminate.
  assert (length (js "robot") = length (js "libro")) as H3 by reflexivity.
  do 3 (split; [assumption|]).
  exact (api_guess_two_pass_reference latin1UpperCase _ _ H1 H2 H3).
Defined.

Lemma api_guess_duplicate_count_witness :
  js "NONNO" ≠ [] ∧ js "ANNOT" ≠ []
  ∧ length (js "NONNO") = length (js "ANNOT")
  ∧ ∃ res : list label,
      api_guess latin1UpperCase (Some (js "NONNO")) (Some (js "ANNOT"))
      = Status200 res (js "NONNO")
      ∧ (credited 78 (js "NONNO") res ≤ occurrences 78 (js "ANNOT"))%nat.
Proof.
  assert (js "NONNO" ≠ []) as H1 by discriminate.
  assert (js "ANNOT" ≠ []) as H2 by discriminate.
  assert (length (js "NONNO") = length (js "ANNOT")) as H3 by reflexivity.
  do 3 (split; [assumption|]).
  exact (api_guess_duplicate_count latin1UpperCase _ _ 78%N H1 H2 H3).
Defined.

(** C3, as the specification states it: the verdicts of NONN against
    ANNO are not present, exact, absent, absent. *)
Lemma api_guess_nonn_anno_counterexample :
  verdicts (api_guess latin1UpperCase (Some (js "NONN")) (Some (js "ANNO")))
  ≠ Some [present; correct; absent; absent].
Proof. vm_compute. discriminate. Qed.

Lemma api_guess_length_mismatch_witness :
  length (js "AB") ≠ length (js "ABC")
  ∧ api_guess latin1UpperCase (Some (js "AB")) (Some (js "ABC"))
    = Status400 "Dati non validi."
  ∧ verdicts (api_guess latin1UpperCase (Some (js "AB")) (Some (js "ABC")))
    = None.
Proof.
  assert (length (js "AB") ≠ length (js "ABC")) as H1 by discriminate.
  split; [assumption|].
  exact (api_guess_length_mismatch latin1UpperCase _ _ H1).
Defined.

Lemma api_guess_self_wins_witness :
  citta_lower ≠ []
  ∧ ∃ res : list label,
      api_guess latin1UpperCase (Some citta_lower) (Some citta_lower)
      = Status200 res citta_upper
      ∧ res = replicate 5 correct
      ∧ Forall (λ v, v = correct) res
      ∧ haVinto res = true.
Proof.
  assert (citta_lower ≠ []) as H1 by discriminate.
  split; [assumption|].
  exact (api_guess_self_wins latin1UpperCase citta_lower H1).
Defined.

Lemma api_guess_case_insensitive_witness :
  citta_lower ≠ [] ∧ js "carta" ≠ []
  ∧ length citta_lower = length (js "carta")
  ∧ citta_upper ≠ [] ∧ js "CARTA" ≠ []
  ∧ length citta_upper = length (js "CARTA")
  ∧ toUpperCase latin1UpperCase citta_upper
    = toUpperCase latin1UpperCase citta_lower
  ∧ toUpperCase latin1UpperCase (js "CARTA")
    = toUpperCase latin1UpperCase (js "carta")
  ∧ api_guess latin1UpperCase (Some citta_lower) (Some (js "carta"))
    = Status200 (evaluate citta_upper (js "CARTA")) citta_upper
  ∧ api_guess latin1UpperCase (Some citta_upper) (Some (js "CARTA"))
    = api_guess latin1UpperCase (Some citta_lower) (Some (js "carta")).
Proof.
  assert (citta_lower ≠ []) as H1 by discriminate.
  assert (js "carta" ≠ []) as H2 by discriminate.
  assert (length citta_lower = length (js "carta")) as H3 by reflexivity.
  assert (citta_upper ≠ []) as H4 by discriminate.
  assert (js "CARTA" ≠ []) as H5 by discriminate.
  assert (length citta_upper = length (js "CARTA")) as H6 by reflexivity.
  assert (toUpperCase latin1UpperCase citta_upper
          = toUpperCase latin1UpperCase citta_lower) as H7 by reflexivity.
  assert (toUpperCase latin1UpperCase (js "CARTA")
          = toUpperCase latin1UpperCase (js "carta")) as H8 by reflexivity.
  do 8 (split; [assumption|]).
  pose proof (api_guess_case_insensitive latin1UpperCase _ _ _ _
                H1 H2 H3 H4 H5 H6 H7 H8) as (Ha & Hb & _).
  exact (conj Ha Hb).
Defined.

Lemma api_guess_empty_input_witness :
  (Some [] = Some (@nil N) ∨ Some (js "ABC") = Some [])
  ∧ api_guess latin1UpperCase (Some []) (Some (js "ABC"))
    = Status400 "Dati non validi."
  ∧ verdicts (api_guess latin1UpperCase (Some []) (Some (js "ABC"))) = None.
Proof.
  assert (Some [] = Some (@nil N) ∨ Some (js "ABC") = Some []) as H1
    by (left; reflexivity).
  split; [assumption|].
  exact (api_guess_empty_input latin1UpperCase _ _ H1).
Defined.

(** An instance where upper-casing lengthens the guess: U+00DF against
    the letter s. *)
Lemma api_guess_exact_iff_witness :
  [223%N] ≠ [] ∧ js "s" ≠ [] ∧ length [223%N] = length (js "s")
  ∧ ∃ res : list label,
      api_guess latin1UpperCase (Some [223%N]) (Some (js "s"))
      = Status200 res (js "SS")
      ∧ length res = length (js "SS")
      ∧ ∀ (i : nat) (v : label),
          res !! i = Some v →
          (v = correct ↔ js "SS" !! i = js "S" !! i).
Proof.
  assert ([223%N] ≠ []) as H1 by discriminate.
  assert (js "s" ≠ []) as H2 by discriminate.
  assert (length [223%N] = length (js "s")) as H3 by reflexivity.
  do 3 (split; [assumption|]).
  exact (api_guess_exact_iff latin1UpperCase _ _ H1 H2 H3).
Defined.

Lemma api_guess_error_iff_witness :
  js "12-45" ≠ [] ∧ js "x y z" ≠ []
  ∧ length (js "12-45") = length (js "x y z")
  ∧ ∃ res : list label,
      api_guess latin1UpperCase (Some (js "12-45")) (Some (js "x y z"))
      = Status200 res (js "12-45")
      ∧ length res = length (js "12-45").
Proof.
  assert (js "12-45" ≠ []) as H1 by discriminate.
  assert (js "x y z" ≠ []) as H2 by discriminate.
  assert (length (js "12-45") = length (js "x y z")) as H3 by reflexivity.
  do 3 (split; [assumption|]).
  exact (proj2 (api_guess_error_iff latin1UpperCase) _ _ H1 H2 H3).
Defined.

(** * Further properties of the code *)

(** ** The evaluator: exact counts *)

(** As [count_cases], replacing equal letters by one another first. *)
Ltac count_cases_subst :=
  repeat match goal with
         | |- context [decide ?P] => destruct (decide P)
         | H : context [decide ?P] |- _ => destruct (decide P)
         end;
  destruct_and?; subst; try lia; exfalso; intuition congruence.

Lemma occurrences_elem_of (L : N) (w : list N) :
  L ∈ w ↔ (0 < occurrences L w)%nat.
Proof.
  induction w as [|c w IH]; cbn.
  - split; [by intros ?%elem_of_nil|lia].
  - rewrite elem_of_cons, IH. destruct (decide (c = L)) as [->|Hc].
    + split; [lia|by left].
    + split; [intros [->|?]; [done|lia]|intros; right; lia].
Qed.

Lemma pending_exact_marks (L : N) (guess : list N) :
  ∀ target : list N,
    (pending L guess (exact_marks guess target)
     + credited L guess (exact_marks guess target)
     = occurrences L guess)%nat.
Proof.
  induction guess as [|c guess IH]; intros target; [done|].
  destruct target as [|d target]; cbn.
  - specialize (IH []). count_cases.
  - specialize (IH target). count_cases.
Qed.

(** Pass 2 credits the pending occurrences of a letter as long as the
    remaining target letters last. *)
Lemma credited_pass2_min (L : N) (gs : list N) :
  ∀ (marks : list label) (remaining : list N),
    length marks = length gs →
    Forall (λ m, m = correct ∨ m = absent) marks →
    (credited L gs (reference_pass2 gs marks remaining)
     = credited L gs marks
       + Nat.min (pending L gs marks) (occurrences L remaining))%nat.
Proof.
  induction gs as [|c gs IH]; intros [|m marks] remaining Hlen Hm;
    try done.
  apply Forall_cons_1 in Hm as [Hm Hms]. injection Hlen as Hlen.
  cbn [reference_pass2].
  destruct (decide (m = correct)) as [->|Hmc].
  - cbn. specialize (IH marks remaining Hlen Hms). count_cases_subst.
  - destruct Hm as [?| ->]; [done|].
    destruct (decide (c ∈ remaining)) as [Hc|Hc]; cbn.
    + specialize (IH marks (consume c remaining) Hlen Hms).
      pose proof (occurrences_consume L c remaining Hc).
      pose proof (proj1 (occurrences_elem_of c remaining) Hc).
      count_cases_subst.
    + specialize (IH marks remaining Hlen Hms).
      assert (occurrences c remaining = 0)%nat.
      { destruct (occurrences c remaining) eqn:E; [done|].
        exfalso. apply Hc, occurrences_elem_of. lia. }
      count_cases_subst.
Qed.

Lemma credited_reference_min (L : N) (guess target : list N) :
  credited L guess (reference guess target)
  = Nat.min (occurrences L guess) (occurrences L target).
Proof.
  unfold reference.
  rewrite credited_pass2_min
    by (apply exact_marks_length || apply exact_marks_Forall).
  pose proof (credited_pass1 L guess target).
  pose proof (pending_exact_marks L guess target). lia.
Qed.

(** No position of a letter is credited exactly when each of its
    positions is absent. *)
Lemma credited_zero (L : N) (guess : list N) :
  ∀ res : list label,
    length res = length guess →
    credited L guess res = 0%nat
    ↔ ∀ i : nat, guess !! i = Some L → res !! i = Some absent.
Proof.
  induction guess as [|c guess IH]; intros [|v res] Hlen; try done.
  injection Hlen as Hlen. cbn [credited]. split.
  - intros H [|i] Hi; cbn in *.
    + destruct (decide (c = L ∧ v ≠ absent)) as [?|Hn]; [lia|].
      injection Hi as ->. destruct (decide (v = absent)) as [->|?]; [done|].
      exfalso. by apply Hn.
    + apply (IH res Hlen); [|done].
      destruct (decide (c = L ∧ v ≠ absent)); lia.
  - intros H.
    assert (credited L guess res = 0%nat) as ->.
    { apply (IH res Hlen). intros i Hi. by apply (H (S i)). }
    destruct (decide (c = L ∧ v ≠ absent)) as [[-> Hv]|?]; [|done].
    specialize (H 0%nat eq_refl). cbn in H. congruence.
Qed.

(** *** Present verdicts *)

Lemma consume_subseteq (c : N) (remaining : list N) :
  consume c remaining ⊆ remaining.
Proof.
  induction remaining as [|d remaining IH]; cbn; [done|].
  destruct (decide (d = c)).
  - by apply list_subseteq_cons.
  - intros x [->|Hx]%elem_of_cons; [left|right; by apply IH].
Qed.

Lemma unconsumed_subseteq (guess : list N) :
  ∀ target : list N, unconsumed guess target ⊆ target.
Proof.
  induction guess as [|c guess IH]; intros [|d target]; cbn; try done.
  destruct (decide (c = d)).
  - by apply list_subseteq_cons.
  - intros x [->|Hx]%elem_of_cons; [left|right; by apply IH].
Qed.

Lemma reference_pass2_present (gs : list N) :
  ∀ (marks : list label) (remaining : list N) (i : nat) (c : N),
    Forall (λ m, m = correct ∨ m = absent) marks →
    gs !! i = Some c →
    reference_pass2 gs marks remaining !! i = Some present →
    c ∈ remaining ∧ marks !! i = Some absent.
Proof.
  induction gs as [|d gs IH]; intros [|m marks] remaining i c Hm Hc Hp;
    try done.
  apply Forall_cons_1 in Hm as [Hm Hms]. cbn [reference_pass2] in Hp.
  destruct (decide (m = correct)) as [->|Hmc].
  - destruct i as [|i]; [done|]. cbn in *. by apply (IH marks remaining).
  - destruct Hm as [?| ->]; [done|].
    destruct (decide (d ∈ remaining)) as [Hd|Hd].
    + destruct i as [|i]; cbn in *; [by injection Hc as ->|].
      destruct (IH marks (consume d remaining) i c Hms Hc Hp) as [? ?].
      split; [by eapply consume_subseteq|done].
    + destruct i as [|i]; [done|]. cbn in *. by apply (IH marks remaining).
Qed.

Lemma exact_marks_absent (guess : list N) :
  ∀ (target : list N) (i : nat),
    exact_marks guess target !! i = Some absent →
    guess !! i ≠ target !! i.
Proof.
  intros target i Ha Heq.
  assert (exact_marks guess target !! i = Some correct) as Hc.
  { apply exact_marks_correct. split; [|done].
    rewrite <- (exact_marks_length guess target). by eapply lookup_lt_Some. }
  congruence.
Qed.

(** *** Winning *)

Lemma reference_pass2_Forall_correct (gs : list N) :
  ∀ (marks : list label) (remaining : list N),
    length marks = length gs →
    Forall (λ v, v = correct) (reference_pass2 gs marks remaining)
    ↔ Forall (λ v, v = correct) marks.
Proof.
  induction gs as [|c gs IH]; intros [|m marks] remaining Hlen; try done.
  injection Hlen as Hlen. cbn [reference_pass2].
  destruct (decide (m = correct)) as [->|Hmc].
  - split; intros [_ H]%Forall_cons_1; constructor; try done;
      by apply (IH marks remaining Hlen).
  - split.
    + destruct (decide (c ∈ remaining));
        by intros [? _]%Forall_cons_1.
    + by intros [? _]%Forall_cons_1.
Qed.

Lemma exact_marks_Forall_correct (guess : list N) :
  ∀ target : list N,
    Forall (λ v, v = correct) (exact_marks guess target)
    ↔ guess `prefix_of` target.
Proof.
  induction guess as [|c guess IH]; intros target; cbn.
  - split; [intros _; apply prefix_nil|constructor].
  - destruct target as [|d target].
    + split; [by intros [? _]%Forall_cons_1|].
      by intros ?%prefix_nil_not.
    + destruct (decide (c = d)) as [->|Hcd].
      * split.
        -- intros [_ H]%Forall_cons_1. by apply prefix_cons, IH.
        -- intros H%prefix_cons_inv_2. constructor; [done|by apply IH].
      * split; [by intros [? _]%Forall_cons_1|].
        by intros ?%prefix_cons_inv_1.
Qed.

(** ** The colours of the keyboard *)

Lemma priority_pos (v : label) : 1 ≤ priority v ≤ 3.
Proof. destruct v; cbn; lia. Qed.

Lemma rango_inj (c1 c2 : option label) : rango c1 = rango c2 → c1 = c2.
Proof. by destruct c1 as [[]|], c2 as [[]|]. Qed.

(** One step of [aggiornaTastiera] gives the key of position [i] the
    better of its colour and the verdict, and leaves the other keys. *)
Lemma aggiorna_tasto_rango (parola : list N) (m : gmap (option N) label)
    (esito : label) (i : nat) (k : option N) :
  rango (aggiorna_tasto parola m esito i !! k)
  = if decide (parola !! i = k) then Z.max (rango (m !! k)) (priority esito)
    else rango (m !! k).
Proof.
  unfold aggiorna_tasto.
  destruct (decide (parola !! i = k)) as [<-|Hk].
  - destruct (m !! (parola !! i)) as [[]|] eqn:Hm, esito;
      repeat case_bool_decide; simplify_eq; cbn;
      rewrite ?lookup_insert_eq, ?Hm; done.
  - destruct (_ || _); [|done]. by rewrite lookup_insert_ne.
Qed.

Lemma update_key_aggiorna_tasto (guess : list N) (m : gmap (option N) label)
    (res : label) (i : nat) :
  update_key guess m res i = aggiorna_tasto guess m res i.
Proof.
  unfold update_key, aggiorna_tasto.
  destruct (m !! (guess !! i)) as [[]|] eqn:Hm, res; cbn [priority];
    repeat case_bool_decide; simplify_eq; try done; try lia;
    by rewrite insert_id.
Qed.

Lemma forEach_from_rango (parola : list N) (k : option N)
    (risultati : list label) :
  ∀ (i : nat) (m : gmap (option N) label),
    rango (forEach_from (aggiorna_tasto parola) risultati i m !! k)
    = Z.max (rango (m !! k)) (migliore k parola risultati i).
Proof.
  induction risultati as [|esito risultati IH]; intros i m;
    cbn [forEach_from migliore].
  - destruct (m !! k) as [[]|]; cbn; lia.
  - rewrite IH, aggiorna_tasto_rango.
    destruct (decide (parola !! i = k)); lia.
Qed.

Lemma migliore_ge (k : option N) (parola : list N) (risultati : list label) :
  ∀ (i j : nat) (v : label),
    risultati !! j = Some v → parola !! (i + j)%nat = k →
    priority v ≤ migliore k parola risultati i.
Proof.
  induction risultati as [|esito risultati IH]; intros i j v Hj Hk; [done|].
  cbn [migliore]. destruct j as [|j]; cbn in Hj.
  - injection Hj as ->. rewrite Nat.add_0_r in Hk.
    rewrite decide_True by done. lia.
  - specialize (IH (S i) j v Hj).
    rewrite Nat.add_succ_comm in IH. specialize (IH Hk).
    destruct (decide (parola !! i = k)); lia.
Qed.

Lemma migliore_attained (k : option N) (parola : list N)
    (risultati : list label) :
  ∀ i : nat,
    migliore k parola risultati i = 0
    ∨ ∃ (j : nat) (v : label),
        risultati !! j = Some v ∧ parola !! (i + j)%nat = k
        ∧ migliore k parola risultati i = priority v.
Proof.
  induction risultati as [|esito risultati IH]; intros i; [by left|].
  cbn [migliore].
  destruct (IH (S i)) as [H0|(j & v & Hj & Hk & Hv)].
  - destruct (decide (parola !! i = k)) as [Hik|?]; [|by left].
    right. exists 0%nat, esito. rewrite Nat.add_0_r.
    pose proof (priority_pos esito). repeat split; try done. lia.
  - right. destruct (decide (parola !! i = k)) as [Hik|?].
    + destruct (Z.max_spec (priority esito)
                  (migliore k parola risultati (S i))) as [[_ ->]|[_ ->]].
      * exists (S j), v. by rewrite <- Nat.add_succ_comm.
      * exists 0%nat, esito. by rewrite Nat.add_0_r.
    + exists (S j), v. by rewrite <- Nat.add_succ_comm.
Qed.

Lemma credited_pos (L : N) (guess : list N) :
  ∀ res : list label,
    (0 < credited L guess res)%nat →
    ∃ (i : nat) (v : label),
      guess !! i = Some L ∧ res !! i = Some v ∧ v ≠ absent.
Proof.
  induction guess as [|c guess IH]; intros [|v res] H; cbn in H; try lia.
  destruct (decide (c = L ∧ v ≠ absent)) as [[-> Hv]|_].
  - by exists 0%nat, v.
  - destruct (IH res) as (i & w & ? & ? & ?); [lia|]. by exists (S i), w.
Qed.

Lemma forEach_aggiorna_tasto (parola : list N) (risultati : list label) :
  ∀ (i : nat) (m : gmap (option N) label),
    forEach_from (update_key parola) risultati i m
    = forEach_from (aggiorna_tasto parola) risultati i m.
Proof.
  induction risultati as [|esito risultati IH]; intros i m; [done|].
  cbn [forEach_from]. by rewrite update_key_aggiorna_tasto, IH.
Qed.

(** X5. After [aggiornaTastiera] the colour of every key is the best,
    in the order correct, present, absent, no colour, of its colour
    before and of the verdicts at the positions of the word that hold
    its letter: the rank of a key never goes down, it is at least the
    priority of each such verdict, and the colour is the old one or one
    of those verdicts. *)
Theorem aggiornaTastiera_best (parola : list N) (risultati : list label)
    (colorTasti : gmap (option N) label) (k : option N) :
  rango (colorTasti !! k)
  ≤ rango (aggiornaTastiera parola risultati colorTasti !! k)
  ∧ (∀ (i : nat) (esito : label),
       risultati !! i = Some esito → parola !! i = k →
       priority esito
       ≤ rango (aggiornaTastiera parola risultati colorTasti !! k))
  ∧ (aggiornaTastiera parola risultati colorTasti !! k = colorTasti !! k
     ∨ ∃ (i : nat) (esito : label),
         risultati !! i = Some esito ∧ parola !! i = k
         ∧ aggiornaTastiera parola risultati colorTasti !! k = Some esito).
Proof.
  unfold aggiornaTastiera, forEach.
  pose proof (forEach_from_rango parola k risultati 0 colorTasti) as Hr.
  split; [lia|]. split.
  - intros i esito Hi Hk.
    pose proof (migliore_ge k parola risultati 0 i esito Hi Hk). lia.
  - destruct (migliore_attained k parola risultati 0)
      as [H0|(j & v & Hj & Hk & Hv)].
    + left. apply rango_inj. rewrite Hr, H0.
      destruct (colorTasti !! k) as [[]|]; cbn; lia.
    + destruct (Z.max_spec (rango (colorTasti !! k))
                  (migliore k parola risultati 0)) as [[_ Hm]|[_ Hm]].
      * right. exists j, v. repeat split; try done.
        apply rango_inj. rewrite Hr, Hm, Hv. done.
      * left. apply rango_inj. by rewrite Hr, Hm.
Qed.

(** X6. [updateKeyStates], with its table of priorities, and
    [aggiornaTastiera], with its three tests, compute the same map. *)
Theorem updateKeyStates_aggiornaTastiera (guess : list N)
    (result : list label) (keyStates : gmap (option N) label) :
  updateKeyStates guess result keyStates
  = aggiornaTastiera guess result keyStates.
Proof. apply forEach_aggiorna_tasto. Qed.

(** ** The evaluator and the keyboard over a round *)

Section Round.

Variable unicodeUpperCase : list N → list N.

(** X1. For an accepted request and every letter [L], the positions of
    [L] in the upper-cased guess that get exact or present are exactly as
    many as the smaller of the numbers of occurrences of [L] in the
    upper-cased guess and in the upper-cased target. *)
Theorem api_guess_credited_min (g t : list N) (L : N) :
  g ≠ [] → t ≠ [] → length g = length t →
  ∃ res : list label,
    api_guess unicodeUpperCase (Some g) (Some t)
    = Status200 res (toUpperCase unicodeUpperCase g)
    ∧ credited L (toUpperCase unicodeUpperCase g) res
      = Nat.min (occurrences L (toUpperCase unicodeUpperCase g))
                (occurrences L (toUpperCase unicodeUpperCase t)).
Proof.
  intros Hg Ht Hlen. eexists. split; [by apply api_guess_accepts|].
  rewrite evaluate_reference. apply credited_reference_min.
Qed.

(** X2. For an accepted request, a letter of the upper-cased guess is
    absent at every position that holds it if and only if it does not
    occur in the upper-cased target. *)
Theorem api_guess_absent_everywhere (g t : list N) (L : N) :
  g ≠ [] → t ≠ [] → length g = length t →
  L ∈ toUpperCase unicodeUpperCase g →
  ∃ res : list label,
    api_guess unicodeUpperCase (Some g) (Some t)
    = Status200 res (toUpperCase unicodeUpperCase g)
    ∧ ((∀ i : nat,
          toUpperCase unicodeUpperCase g !! i = Some L →
          res !! i = Some absent)
       ↔ L ∉ toUpperCase unicodeUpperCase t).
Proof.
  intros Hg Ht Hlen HL. eexists. split; [by apply api_guess_accepts|].
  rewrite evaluate_reference.
  rewrite <- credited_zero by apply reference_length.
  rewrite credited_reference_min, occurrences_elem_of.
  apply occurrences_elem_of in HL. lia.
Qed.

(** X3. For an accepted request, a position gets present only when its
    letter occurs in the upper-cased target and is not the letter of the
    target at that position. *)
Theorem api_guess_present_sound (g t : list N) :
  g ≠ [] → t ≠ [] → length g = length t →
  ∃ res : list label,
    api_guess unicodeUpperCase (Some g) (Some t)
    = Status200 res (toUpperCase unicodeUpperCase g)
    ∧ ∀ (i : nat) (c : N),
        toUpperCase unicodeUpperCase g !! i = Some c →
        res !! i = Some present →
        c ∈ toUpperCase unicodeUpperCase t
        ∧ toUpperCase unicodeUpperCase t !! i ≠ Some c.
Proof.
  intros Hg Ht Hlen. eexists. split; [by apply api_guess_accepts|].
  rewrite evaluate_reference. intros i c Hc Hp.
  destruct (reference_pass2_present _ _ _ i c
              (exact_marks_Forall _ _) Hc Hp) as [Hin Hab].
  split; [by eapply unconsumed_subseteq|].
  apply exact_marks_absent in Hab. congruence.
Qed.

(** X4. For an accepted request, the win test of the client succeeds
    exactly when the upper-cased guess is a prefix of the upper-cased
    target; when the two have the same length, exactly when they are
    equal. *)
Theorem api_guess_win_iff (g t : list N) :
  g ≠ [] → t ≠ [] → length g = length t →
  ∃ res : list label,
    api_guess unicodeUpperCase (Some g) (Some t)
    = Status200 res (toUpperCase unicodeUpperCase g)
    ∧ (haVinto res = true
       ↔ toUpperCase unicodeUpperCase g
         `prefix_of` toUpperCase unicodeUpperCase t)
    ∧ (length (toUpperCase unicodeUpperCase g)
       = length (toUpperCase unicodeUpperCase t) →
       haVinto res = true
       ↔ toUpperCase unicodeUpperCase g = toUpperCase unicodeUpperCase t).
Proof.
  intros Hg Ht Hlen. eexists. split; [by apply api_guess_accepts|].
  rewrite evaluate_reference, haVinto_Forall. unfold reference.
  rewrite reference_pass2_Forall_correct by apply exact_marks_length.
  rewrite exact_marks_Forall_correct. split; [done|].
  intros Hl. split.
  - intros Hp. by apply prefix_length_eq; [|lia].
  - by intros ->.
Qed.

(** X7. A round seen on the keyboard: after [aggiornaTastiera] on the
    reply to an accepted request, the key of a letter of the guess that
    is not in the target keeps its colour if it had one and becomes
    absent otherwise, and the key of a letter of the guess that is in the
    target is present or correct. *)
Theorem aggiornaTastiera_round (g t : list N) (L : N)
    (colorTasti : gmap (option N) label) :
  g ≠ [] → t ≠ [] → length g = length t →
  L ∈ toUpperCase unicodeUpperCase g →
  ∃ res : list label,
    api_guess unicodeUpperCase (Some g) (Some t)
    = Status200 res (toUpperCase unicodeUpperCase g)
    ∧ (L ∉ toUpperCase unicodeUpperCase t →
       aggiornaTastiera (toUpperCase unicodeUpperCase g) res colorTasti
         !! Some L
       = Some (default absent (colorTasti !! Some L)))
    ∧ (L ∈ toUpperCase unicodeUpperCase t →
       2 ≤ rango (aggiornaTastiera (toUpperCase unicodeUpperCase g) res
                    colorTasti !! Some L)).
Proof.
  intros Hg Ht Hlen HL. eexists. split; [by apply api_guess_accepts|].
  rewrite evaluate_reference.
  set (U := toUpperCase unicodeUpperCase g) in *.
  set (T := toUpperCase unicodeUpperCase t) in *.
  pose proof (forEach_from_rango U (Some L) (reference U T) 0 colorTasti)
    as Hr.
  fold (forEach (aggiorna_tasto U) (reference U T) colorTasti) in Hr.
  fold (aggiornaTastiera U (reference U T) colorTasti) in Hr.
  split.
  - intros HT.
    assert (∀ i, U !! i = Some L → reference U T !! i = Some absent) as Hab.
    { apply credited_zero; [apply reference_length|].
      rewrite credited_reference_min.
      destruct (occurrences L T) eqn:E; [lia|].
      exfalso. apply HT, occurrences_elem_of. lia. }
    assert (migliore (Some L) U (reference U T) 0 = 1) as Hm.
    { apply list_elem_of_lookup in HL as [j Hj].
      pose proof (migliore_ge (Some L) U (reference U T) 0 j absent
                    (Hab j Hj) Hj) as Hge. cbn in Hge.
      destruct (migliore_attained (Some L) U (reference U T) 0)
        as [H0|(j' & v & Hj' & Hk & Hv)]; [lia|].
      rewrite (Hab j' Hk) in Hj'. injection Hj' as <-. by rewrite Hv. }
    apply rango_inj. rewrite Hr, Hm.
    destruct (colorTasti !! Some L) as [[]|]; cbn; lia.
  - intros HT.
    destruct (credited_pos L U (reference U T)) as (i & v & Hi & Hv & Hna).
    { rewrite credited_reference_min.
      apply occurrences_elem_of in HL, HT. lia. }
    pose proof (migliore_ge (Some L) U (reference U T) 0 i v Hv Hi) as Hge.
    destruct v; [done|cbn in Hge; lia..].
Qed.

End Round.

(** ** The leaderboard *)

Lemma compare_le (a b : record) :
  compare a b ≤ 0
  ↔ attempts a < attempts b ∨ (attempts a = attempts b ∧ time a ≤ time b).
Proof. unfold compare. destruct (decide _); lia. Qed.

Lemma before_total (a b : record) : before a b ∨ before b a.
Proof. unfold before. rewrite !compare_le. lia. Qed.

Lemma before_trans (a b c : record) : before a b → before b c → before a c.
Proof. unfold before. rewrite !compare_le. lia. Qed.

Lemma sort_insert_Permutation (x : record) (l : list record) :
  sort_insert compare x l ≡ₚ x :: l.
Proof.
  induction l as [|y l IH]; cbn; [done|].
  case_bool_decide; [done|]. by rewrite IH, Permutation_swap.
Qed.

Lemma sort_Permutation (l : list record) : sort compare l ≡ₚ l.
Proof.
  induction l as [|x l IH]; cbn; [done|].
  by rewrite sort_insert_Permutation, IH.
Qed.

Lemma sort_insert_sorted (x : record) (l : list record) :
  StronglySorted before l → StronglySorted before (sort_insert compare x l).
Proof.
  induction l as [|y l IH]; intros Hl; cbn.
  - by repeat constructor.
  - apply StronglySorted_cons in Hl as [Hy Hl]. case_bool_decide as Hxy.
    + apply StronglySorted_cons. split.
      * constructor; [done|].
        eapply Forall_impl; [exact Hy|]. intros z Hz.
        by apply (before_trans x y z).
      * by apply StronglySorted_cons.
    + apply StronglySorted_cons. split; [|by apply IH].
      rewrite sort_insert_Permutation. constructor; [|done].
      destruct (before_total x y); [done|done].
Qed.

Lemma sort_sorted (l : list record) : StronglySorted before (sort compare l).
Proof.
  induction l as [|x l IH]; cbn; [constructor|].
  by apply sort_insert_sorted.
Qed.

Lemma StronglySorted_lookup_lt {A} (R : A → A → Prop) (l : list A) :
  StronglySorted R l →
  ∀ (i j : nat) (a b : A),
    (i < j)%nat → l !! i = Some a → l !! j = Some b → R a b.
Proof.
  induction 1 as [|x l Hl IH Hx]; intros i j a b Hij Hi Hj; [done|].
  destruct j as [|j]; [lia|]. cbn in Hj. destruct i as [|i]; cbn in Hi.
  - injection Hi as <-. rewrite Forall_forall in Hx.
    apply Hx. by eapply list_elem_of_lookup_2.
  - apply (IH i j); [lia|done..].
Qed.

(** The sort keeps the order of the records that compare equal. *)
Lemma sort_insert_stable (P : record → Prop) `{!∀ x, Decision (P x)}
    (x : record) (l : list record) :
  (∀ y, P x → P y → compare x y ≤ 0) →
  filter P (sort_insert compare x l) = filter P (x :: l).
Proof.
  intros Htie. induction l as [|y l IH]; cbn; [done|].
  case_bool_decide as Hxy; [done|].
  rewrite filter_cons, IH, !filter_cons.
  destruct (decide (P x)) as [Hx|Hx], (decide (P y)) as [Hy|Hy]; try done.
  exfalso. apply Hxy. by apply Htie.
Qed.

Lemma sort_stable (P : record → Prop) `{!∀ x, Decision (P x)}
    (l : list record) :
  (∀ x y, P x → P y → compare x y ≤ 0) →
  filter P (sort compare l) = filter P l.
Proof.
  intros Htie. induction l as [|x l IH]; cbn; [done|].
  rewrite sort_insert_stable by (intros; by apply Htie).
  by rewrite !filter_cons, IH.
Qed.

Lemma slice0_take {A} (arr : list A) (fine : Z) :
  ∃ k : nat, slice0 arr fine = take k arr.
Proof. by eexists. Qed.

Lemma slice0_length {A} (arr : list A) (fine : Z) :
  Z.of_nat (length (slice0 arr fine))
  = if bool_decide (fine < 0) then Z.max (Z.of_nat (length arr) + fine) 0
    else Z.min fine (Z.of_nat (length arr)).
Proof.
  unfold slice0. rewrite length_take. case_bool_decide; lia.
Qed.

Lemma api_leaderboard_take (parsed : option Z) (results : list record) :
  ∃ k : nat,
    api_leaderboard parsed results
    = take k (sort compare (filter (λ r, won r = Some true) results)).
Proof. unfold api_leaderboard. apply slice0_take. Qed.

(** X8. The leaderboard is sorted: of two of its records, the earlier
    one took fewer attempts, or as many attempts and at most as much
    time. *)
Theorem api_leaderboard_sorted (parsed : option Z) (results : list record)
    (i j : nat) (a b : record) :
  (i < j)%nat →
  api_leaderboard parsed results !! i = Some a →
  api_leaderboard parsed results !! j = Some b →
  attempts a < attempts b ∨ (attempts a = attempts b ∧ time a ≤ time b).
Proof.
  intros Hij Hi Hj. apply compare_le.
  destruct (api_leaderboard_take parsed results) as [k Hk].
  rewrite Hk in Hi, Hj.
  apply lookup_take_Some in Hi as [Hi _], Hj as [Hj _].
  eapply (StronglySorted_lookup_lt before); [apply sort_sorted|done..].
Qed.

(** X9. The leaderboard lists won games only, records of
    [results.json], and none twice: it is a permutation of a sublist of
    the won games. *)
Theorem api_leaderboard_winners (parsed : option Z) (results : list record) :
  (∀ r : record,
     r ∈ api_leaderboard parsed results →
     r ∈ results ∧ won r = Some true)
  ∧ api_leaderboard parsed results
    ⊆+ filter (λ r, won r = Some true) results.
Proof.
  destruct (api_leaderboard_take parsed results) as [k Hk].
  assert (api_leaderboard parsed results
          ⊆+ filter (λ r, won r = Some true) results) as Hsub.
  { rewrite Hk. etrans; [apply sublist_submseteq, sublist_take|].
    by rewrite sort_Permutation. }
  split; [|done]. intros r Hr.
  eapply elem_of_submseteq in Hr; [|exact Hsub].
  by apply list_elem_of_filter in Hr as [? ?].
Qed.

Lemma sort_length (l : list record) : length (sort compare l) = length l.
Proof. by rewrite sort_Permutation. Qed.

(** X10. The size of the leaderboard. Without a usable [limit] (absent,
    not a number, or 0) it has at most 20 records; with a positive limit,
    at most that many; with a negative limit [-n], the [n] last records of
    the ranking are left out. *)
Theorem api_leaderboard_size (parsed : option Z) (results : list record) :
  let winners := Z.of_nat (length (filter (λ r, won r = Some true) results)) in
  let size := Z.of_nat (length (api_leaderboard parsed results)) in
  (parsed = None ∨ parsed = Some 0 → size = Z.min 20 winners)
  ∧ (∀ n, parsed = Some n → 0 < n → size = Z.min n winners)
  ∧ (∀ n, parsed = Some n → n < 0 → size = Z.max (winners + n) 0).
Proof.
  cbn zeta. unfold api_leaderboard.
  rewrite slice0_length, sort_length.
  split; [|split].
  - intros [->| ->]; by repeat case_bool_decide.
  - intros n -> Hn. repeat case_bool_decide; lia.
  - intros n -> Hn. repeat case_bool_decide; lia.
Qed.

(** X11. Games with the same attempts and the same time keep, on the
    leaderboard, the order in which they were saved. *)
Theorem api_leaderboard_ties (parsed : option Z) (results : list record)
    (a : record) :
  filter (λ x, attempts x = attempts a ∧ time x = time a)
    (api_leaderboard parsed results)
  `prefix_of`
  filter (λ x, attempts x = attempts a ∧ time x = time a)
    (filter (λ r, won r = Some true) results).
Proof.
  destruct (api_leaderboard_take parsed results) as [k ->].
  set (P := λ x : record, attempts x = attempts a ∧ time x = time a).
  rewrite <- (sort_stable P (filter _ results)).
  - rewrite <- (take_drop k (sort compare _)) at 2.
    rewrite filter_app. by apply prefix_app_r.
  - intros x y [? ?] [? ?]. apply compare_le. lia.
Qed.

(** ** [trim] *)

Lemma trimStart_head (s : list N) (c : N) :
  head (trimStart s) = Some c → isWhiteSpace c = false.
Proof.
  induction s as [|d s IH]; cbn; [done|].
  destruct (isWhiteSpace d) eqn:Hd; [done|].
  cbn. by intros [= <-].
Qed.

Lemma trimStart_suffix (s : list N) : trimStart s `suffix_of` s.
Proof.
  induction s as [|d s IH]; cbn; [done|].
  destruct (isWhiteSpace d); [by apply suffix_cons_r|done].
Qed.

Lemma trimStart_blank (s : list N) :
  Forall (λ c, isWhiteSpace c = true) s → trimStart s = [].
Proof. induction 1 as [|c s Hc _ IH]; cbn; [done|]. by rewrite Hc. Qed.

Lemma trimStart_keep (s : list N) (c : N) :
  isWhiteSpace c = false → trimStart (c :: s) = c :: s.
Proof. intros Hc. cbn. by rewrite Hc. Qed.

Lemma trimEnd_last (s : list N) (c : N) :
  last (trimEnd s) = Some c → isWhiteSpace c = false.
Proof. unfold trimEnd. rewrite last_reverse. apply trimStart_head. Qed.

Lemma trimEnd_prefix (s : list N) : trimEnd s `prefix_of` s.
Proof.
  unfold trimEnd. pose proof (trimStart_suffix (reverse s)) as H.
  apply suffix_prefix_reverse in H. by rewrite reverse_involutive in H.
Qed.

Lemma trim_head (s : list N) (c : N) :
  head (trim s) = Some c → isWhiteSpace c = false.
Proof.
  unfold trim. intros Hc. apply (trimStart_head s).
  destruct (trimEnd_prefix (trimStart s)) as [k Hk].
  rewrite Hk. by destruct (trimEnd (trimStart s)).
Qed.

Lemma trim_last (s : list N) (c : N) :
  last (trim s) = Some c → isWhiteSpace c = false.
Proof. apply trimEnd_last. Qed.

Lemma trim_blank (s : list N) :
  Forall (λ c, isWhiteSpace c = true) s → trim s = [].
Proof. intros H. unfold trim. by rewrite trimStart_blank. Qed.

Lemma trimStart_split (s : list N) :
  ∃ l : list N,
    s = l ++ trimStart s ∧ Forall (λ c, isWhiteSpace c = true) l.
Proof.
  induction s as [|d s (l & Hl & Hws)]; [by exists []|]. cbn.
  destruct (isWhiteSpace d) eqn:Hd; [|by exists []].
  exists (d :: l). split; [by rewrite Hl at 1|by constructor].
Qed.

Lemma trimEnd_split (s : list N) :
  ∃ r : list N,
    s = trimEnd s ++ r ∧ Forall (λ c, isWhiteSpace c = true) r.
Proof.
  destruct (trimStart_split (reverse s)) as (l & Hl & Hws).
  exists (reverse l). split; [|by apply Forall_reverse].
  unfold trimEnd. rewrite <- reverse_app, <- Hl.
  by rewrite reverse_involutive.
Qed.

Lemma trim_split (s : list N) :
  ∃ l r : list N,
    s = l ++ trim s ++ r
    ∧ Forall (λ c, isWhiteSpace c = true) l
    ∧ Forall (λ c, isWhiteSpace c = true) r.
Proof.
  destruct (trimStart_split s) as (l & Hl & Hwl).
  destruct (trimEnd_split (trimStart s)) as (r & Hr & Hwr).
  exists l, r. unfold trim. by rewrite <- Hr.
Qed.

(** ** Saving a game *)

Lemma api_results_accepts (now : Z) (iso p w : list N) (a t : Z)
    (d : option Z) (v : option bool) (results : list record) :
  p ≠ [] → w ≠ [] →
  api_results now iso (Some p) (Some w) (Some a) (Some t) d v results
  = (Results201 "Risultato salvato!"
       {| id_ := now; player := trim p; word := w; attempts := a;
          time := t; difficulty := d; won := v; date := iso |},
     results ++ [{| id_ := now; player := trim p; word := w; attempts := a;
                    time := t; difficulty := d; won := v; date := iso |}]).
Proof. intros Hp Hw. by destruct p, w. Qed.

(** X12. [POST /api/results] refuses a body exactly when [player] or
    [word] is missing or empty, or [attempts] or [time] is missing (0 is
    accepted for both); a refused body leaves [results.json] as it was. *)
Theorem api_results_reject_iff (now : Z) (iso : list N)
    (body_player body_word : option (list N))
    (body_attempts body_time body_difficulty : option Z)
    (body_won : option bool) (results : list record) :
  ((∃ e, (api_results now iso body_player body_word body_attempts body_time
            body_difficulty body_won results).1 = Results400 e)
   ↔ (body_player = None ∨ body_player = Some []
      ∨ body_word = None ∨ body_word = Some []
      ∨ body_attempts = None ∨ body_time = None))
  ∧ ((∃ e, (api_results now iso body_player body_word body_attempts
              body_time body_difficulty body_won results).1 = Results400 e)
     → (api_results now iso body_player body_word body_attempts body_time
          body_difficulty body_won results).2 = results).
Proof.
  destruct body_player as [[|c p]|], body_word as [[|c' w]|],
    body_attempts as [a|], body_time as [t|]; cbn;
    (split; [split; [intros _; auto 10|intros _; by eexists]|done])
    || (split; [split; [by intros [? ?]|]|by intros [? ?]]).
  intros [?|[?|[?|[?|[?|?]]]]]; done.
Qed.

(** X13. An accepted game is appended to [results.json] after the
    records already there, which are kept; the name saved with it is the
    name sent without the white space at its two ends. *)
Theorem api_results_saved (now : Z) (iso p w : list N) (a t : Z)
    (d : option Z) (v : option bool) (results : list record) :
  p ≠ [] → w ≠ [] →
  ∃ (msg : string) (newRecord : record),
    api_results now iso (Some p) (Some w) (Some a) (Some t) d v results
    = (Results201 msg newRecord, results ++ [newRecord])
    ∧ attempts newRecord = a ∧ time newRecord = t ∧ won newRecord = v
    ∧ word newRecord = w
    ∧ (∃ l r, p = l ++ player newRecord ++ r
              ∧ Forall (λ c, isWhiteSpace c = true) l
              ∧ Forall (λ c, isWhiteSpace c = true) r)
    ∧ (∀ c, head (player newRecord) = Some c → isWhiteSpace c = false)
    ∧ (∀ c, last (player newRecord) = Some c → isWhiteSpace c = false).
Proof.
  intros Hp Hw. do 2 eexists.
  split; [by apply api_results_accepts|]. cbn.
  repeat split; try done.
  - apply trim_split.
  - apply trim_head.
  - apply trim_last.
Qed.

(** X14. The server tests the name before trimming it: a name made
    only of white space is accepted, and saved as the empty name. *)
Theorem api_results_blank_player (now : Z) (iso p w : list N) (a t : Z)
    (d : option Z) (v : option bool) (results : list record) :
  p ≠ [] → Forall (λ c, isWhiteSpace c = true) p → w ≠ [] →
  ∃ (msg : string) (newRecord : record),
    api_results now iso (Some p) (Some w) (Some a) (Some t) d v results
    = (Results201 msg newRecord, results ++ [newRecord])
    ∧ player newRecord = [].
Proof.
  intros Hp Hws Hw. do 2 eexists.
  split; [by apply api_results_accepts|]. cbn. by apply trim_blank.
Qed.

Lemma slice0_all {A} (arr : list A) (fine : Z) :
  Z.of_nat (length arr) ≤ fine → slice0 arr fine = arr.
Proof.
  intros H. unfold slice0. rewrite bool_decide_eq_false_2 by lia.
  apply take_ge. lia.
Qed.

(** X15. Saving a game that was not won, or sending a body that is
    refused, changes no leaderboard. *)
Theorem api_results_lost_game (now : Z) (iso : list N)
    (body_player body_word : option (list N))
    (body_attempts body_time body_difficulty : option Z)
    (body_won : option bool) (results : list record) (parsed : option Z) :
  body_won ≠ Some true →
  api_leaderboard parsed
    (api_results now iso body_player body_word body_attempts body_time
       body_difficulty body_won results).2
  = api_leaderboard parsed results.
Proof.
  intros Hw.
  destruct body_player as [[|c p]|], body_word as [[|c' w]|],
    body_attempts as [a|], body_time as [t|]; try done.
  cbn. unfold api_leaderboard. rewrite filter_app, filter_cons_False by done.
  by rewrite filter_nil, app_nil_r.
Qed.

(** X16. A won game that is accepted enters the leaderboard: with a
    limit above the number of won games saved so far, the leaderboard
    after it is the leaderboard before it with the new record added. *)
Theorem api_results_won_game (now : Z) (iso p w : list N) (a t : Z)
    (d : option Z) (results : list record) (n : Z) :
  p ≠ [] → w ≠ [] →
  Z.of_nat (length (filter (λ r, won r = Some true) results)) < n →
  ∃ (msg : string) (newRecord : record),
    (api_results now iso (Some p) (Some w) (Some a) (Some t) d (Some true)
       results).1 = Results201 msg newRecord
    ∧ newRecord
      ∈ api_leaderboard (Some n)
          (api_results now iso (Some p) (Some w) (Some a) (Some t) d
             (Some true) results).2
    ∧ api_leaderboard (Some n)
        (api_results now iso (Some p) (Some w) (Some a) (Some t) d
           (Some true) results).2
      ≡ₚ newRecord :: api_leaderboard (Some n) results.
Proof.
  intros Hp Hw Hn. do 2 eexists.
  rewrite api_results_accepts by done. cbn [fst snd].
  split; [done|].
  set (rec := {| id_ := now; player := trim p; word := w; attempts := a;
                 time := t; difficulty := d; won := Some true;
                 date := iso |}).
  assert (api_leaderboard (Some n) (results ++ [rec])
          ≡ₚ rec :: api_leaderboard (Some n) results) as Hperm.
  { unfold api_leaderboard.
    rewrite bool_decide_eq_false_2 by lia.
    rewrite !slice0_all.
    - rewrite !sort_Permutation, filter_app, filter_cons_True by done.
      rewrite filter_nil. by rewrite <- Permutation_cons_append.
    - rewrite sort_length. lia.
    - rewrite sort_length, filter_app, filter_cons_True by done.
      rewrite filter_nil, length_app. cbn. lia. }
  split; [|done]. rewrite Hperm. left.
Qed.


(** ** The words *)

Lemma split_on_app_sep (sep : N) (w rest : list N) :
  sep ∉ w → split_on sep (w ++ sep :: rest) = w :: split_on sep rest.
Proof.
  induction w as [|c w IH]; intros Hw; cbn.
  - by rewrite decide_True.
  - apply not_elem_of_cons in Hw as [Hc Hw].
    rewrite decide_False by done. by rewrite IH.
Qed.

Lemma trimStart_app_blank (l s : list N) :
  Forall (λ c, isWhiteSpace c = true) l → trimStart (l ++ s) = trimStart s.
Proof. induction 1 as [|c l Hc _ IH]; cbn; [done|]. by rewrite Hc. Qed.

Lemma trimStart_id (s : list N) :
  Forall (λ c, isWhiteSpace c = false) s → trimStart s = s.
Proof. destruct 1 as [|c s Hc _]; cbn; [done|]. by rewrite Hc. Qed.

(** White space after a word without white space is trimmed away. *)
Lemma trim_padded (w pad : list N) :
  Forall (λ c, isWhiteSpace c = false) w →
  Forall (λ c, isWhiteSpace c = true) pad →
  trim (w ++ pad) = w.
Proof.
  intros Hw Hpad. unfold trim.
  destruct w as [|c w].
  - cbn [app]. by rewrite trimStart_blank.
  - pose proof Hw as [Hc _]%Forall_cons_1.
    cbn [app]. rewrite trimStart_keep by done.
    change (c :: w ++ pad) with ((c :: w) ++ pad).
    unfold trimEnd. rewrite reverse_app, trimStart_app_blank
      by by apply Forall_reverse.
    rewrite trimStart_id by by apply Forall_reverse.
    apply reverse_involutive.
Qed.

Section WordsProperties.

Variable unicodeUpperCase : list N → list N.

Lemma toUpperCase_nil : toUpperCase unicodeUpperCase [] = [].
Proof. reflexivity. Qed.

(** X17. Reading a words file back. When every line of the file is a
    word of the requested length made of ASCII units without white
    space, followed by the same white space (nothing, or the carriage
    return of a CRLF file) and a line feed, [getWords] returns these
    words, in upper case and in the order of the file. *)
Theorem getWords_lines (len : Z) (ws : list (list N)) (pad : list N) :
  0 < len →
  Forall (λ c, isWhiteSpace c = true) pad → 10%N ∉ pad →
  Forall (λ w, Z.of_nat (length w) = len
               ∧ Forall (λ c, isAscii c = true ∧ isWhiteSpace c = false) w)
    ws →
  getWords unicodeUpperCase len (ws ≫= λ w : list N, w ++ pad ++ [10%N])
  = (λ w : list N, asciiUpper <$> w) <$> ws.
Proof.
  intros Hlen Hpad Hnl Hws. unfold getWords.
  induction Hws as [|w ws [Hw Hc] _ IH]; cbn [mbind list_bind].
  - cbn. destruct (decide _); [lia|done].
  - assert (Forall (λ c, isWhiteSpace c = false) w) as Hnws.
    { eapply Forall_impl; [exact Hc|]. by intros c [_ ?]. }
    assert (forallb isAscii w = true) as Hascii.
    { clear -Hc. induction Hc as [|c w [Hc _] _ IHc]; cbn; [done|].
      by rewrite Hc. }
    rewrite <- !app_assoc. cbn [app].
    rewrite (app_assoc w pad), split_on_app_sep.
    + rewrite fmap_cons, trim_padded by done.
      rewrite (toUpperCase_ascii _ w Hascii).
      rewrite filter_cons_True by (by rewrite length_fmap).
      cbn [fmap list_fmap]. f_equal. exact IH.
    + intros [Hin|Hin]%elem_of_app; [|done].
      rewrite Forall_forall in Hnws. by specialize (Hnws _ Hin).
Qed.

(** X18. [GET /api/word] replies with a word only for a difficulty of
    5, 6 or 8 whose file could be read; the word is one of [getWords],
    it has exactly as many code units as the difficulty, and the [length]
    of the reply is that number. *)
Theorem api_word_reply (parsed : option Z) (readFile : Z → option (list N))
    (k : nat) (w : list N) (n : nat) :
  api_word unicodeUpperCase parsed readFile k = Word200 w n →
  ∃ (d : Z) (content : list N),
    parsed = Some d ∧ (d = 5 ∨ d = 6 ∨ d = 8)
    ∧ readFile d = Some content
    ∧ getWords unicodeUpperCase d content !! k = Some w
    ∧ Z.of_nat (length w) = d
    ∧ n = length w.
Proof.
  unfold api_word. intros H.
  destruct parsed as [d|]; [|done].
  case_bool_decide as Hd; [|done].
  destruct (readFile d) as [content|] eqn:Hf; [|done].
  case_bool_decide; [done|].
  destruct (getWords unicodeUpperCase d content !! k) as [w'|] eqn:Hk;
    [|done].
  injection H as -> <-. exists d, content.
  repeat split; try done.
  - apply elem_of_cons in Hd as [->|Hd]; [auto|].
    apply elem_of_cons in Hd as [->|Hd]; [auto|].
    apply elem_of_cons in Hd as [->|Hd]; [auto|].
    by apply elem_of_nil in Hd.
  - apply list_elem_of_lookup_2 in Hk.
    unfold getWords in Hk. by apply list_elem_of_filter in Hk as [? _].
Qed.

End WordsProperties.

(** ** Typing a row *)

Lemma isLetterKey_inv (l : list N) :
  isLetterKey l = true → ∃ c : N, l = [c] ∧ (65 ≤ c ≤ 90)%N.
Proof.
  destruct l as [|c [|? ?]]; cbn; try done.
  intros [?%N.leb_le ?%N.leb_le]%andb_true_iff. by exists c.
Qed.

(** Joining typed letters gives one upper-case ASCII letter per key. *)
Lemma concat_letters (t : list (list N)) :
  Forall (λ l, isLetterKey l = true) t →
  length (concat t) = length t
  ∧ Forall (λ c, (65 ≤ c ≤ 90)%N) (concat t).
Proof.
  induction 1 as [|l t Hl _ [IH1 IH2]]; cbn; [done|].
  apply isLetterKey_inv in Hl as (c & -> & Hc). cbn.
  split; [by rewrite IH1|by constructor].
Qed.

Lemma toUpperCase_upper_letters (u : list N → list N) (s : list N) :
  Forall (λ c, (65 ≤ c ≤ 90)%N) s → toUpperCase u s = s.
Proof.
  intros Hs. rewrite toUpperCase_ascii.
  - induction Hs as [|c s Hc _ IH]; cbn; [done|]. rewrite IH. f_equal.
    unfold asciiUpper.
    assert ((97 <=? c)%N = false) as -> by (apply N.leb_gt; lia). done.
  - induction Hs as [|c s Hc _ IH]; cbn; [done|]. rewrite IH.
    unfold isAscii.
    assert ((c <? 128)%N = true) as -> by (apply N.ltb_lt; lia). done.
Qed.

Lemma Forall_removelast {A} (P : A → Prop) (l : list A) :
  Forall P l → Forall P (removelast l).
Proof.
  induction 1 as [|x l Hx Hl IH]; cbn; [done|].
  destruct l; [done|]. by constructor.
Qed.

Lemma length_removelast {A} (l : list A) :
  length (removelast l) = (length l - 1)%nat.
Proof.
  induction l as [|x l IH]; cbn; [done|].
  destruct l; [done|]. cbn in *. lia.
Qed.

Section TastiProperties.

Variable unicodeUpperCase : list N → list N.
Variable getTile : nat → nat → bool.

(** X19. On a page with the grid of [costruisciGriglia], every key
    keeps the row valid: the column stays the number of letters typed
    and within the length of the word, only the letters A to Z enter the
    row, and an unfinished game stays on a row of the grid. *)
Theorem gestisciTasto_riga_valida (st : gioco) (tasto : list N) :
  (∀ r c, costruisciGriglia (maxTentativi st) (difficolta st) r c = true →
          getTile r c = true) →
  riga_valida st →
  riga_valida (gestisciTasto getTile st tasto).1.
Proof.
  intros Hgrid Hv. pose proof Hv as (Hcol & Hle & Hlet & Hrow).
  unfold gestisciTasto.
  destruct (partitaFinita st) eqn:Hfin; [exact Hv|].
  case_bool_decide; [|case_bool_decide; [exact Hv|]].
  - cbn [fst]. unfold cancellaLettera. case_bool_decide; [exact Hv|].
    repeat split; cbn.
    + rewrite length_removelast. lia.
    + lia.
    + by apply Forall_removelast.
    + by rewrite Hfin.
  - destruct (isLetterKey tasto) eqn:Hkey; [|exact Hv].
    cbn [fst]. unfold aggiungiLettera. case_bool_decide; [exact Hv|].
    rewrite Hgrid.
    + repeat split; cbn.
      * rewrite length_app. cbn. lia.
      * lia.
      * apply Forall_app. split; [done|by constructor].
      * by rewrite Hfin.
    + unfold costruisciGriglia.
      rewrite !bool_decide_eq_true_2; [done|lia|by apply Hrow].
Qed.

(** X20. Deleting right after typing a letter gives back the variables
    as they were, when the row was not full. *)
Theorem cancellaLettera_aggiungiLettera (st : gioco) (lettera : list N) :
  getTile (rigaCorrente st) (colonnaCorrente st) = true →
  (colonnaCorrente st < difficolta st)%nat →
  cancellaLettera (aggiungiLettera getTile st lettera) = st.
Proof.
  intros Htile Hcol. unfold aggiungiLettera.
  rewrite bool_decide_eq_false_2 by lia. rewrite Htile.
  unfold cancellaLettera. cbn.
  rewrite removelast_last, Nat.sub_0_r. by destruct st.
Qed.

(** X21. A full row is always accepted by the server: when the secret
    word has [difficolta] code units, as a word of [GET /api/word] has,
    the request that INVIO sends on a valid row gets a reply that
    carries the typed word unchanged and [difficolta] verdicts. *)
Theorem inviaTentativo_accettato (st st' : gioco) (g t : list N) :
  riga_valida st →
  length (parolaSegreta st) = difficolta st →
  (0 < difficolta st)%nat →
  gestisciTasto getTile st tasto_invio = (st', Some (g, t)) →
  st' = st ∧ t = parolaSegreta st ∧ g = concat (tentativo st)
  ∧ ∃ res : list label,
      api_guess unicodeUpperCase (Some g) (Some t) = Status200 res g
      ∧ length res = difficolta st.
Proof.
  intros (Hcol & Hle & Hlet & Hrow) Hsec Hpos. unfold gestisciTasto.
  destruct (partitaFinita st); [done|].
  rewrite bool_decide_eq_false_2 by done.
  rewrite bool_decide_eq_true_2 by done.
  unfold inviaTentativo_richiesta. case_bool_decide as Hfull; [done|].
  intros [= <- <- <-]. do 3 (split; [done|]).
  destruct (concat_letters _ Hlet) as [Hlen Hup].
  assert (length (concat (tentativo st)) = difficolta st) as Hg by lia.
  pose proof (toUpperCase_upper_letters unicodeUpperCase _ Hup) as Hu.
  eexists. split.
  - rewrite api_guess_accepts, Hu; [done|..].
    + intros E. rewrite E in Hg. cbn in Hg. lia.
    + intros E. rewrite E in Hsec. cbn in Hsec. lia.
    + lia.
  - rewrite evaluate_reference, reference_length. lia.
Qed.

End TastiProperties.

(** ** Concrete instances of the further properties *)

Lemma api_guess_credited_min_witness :
  js "NONNO" ≠ [] ∧ js "ANNOT" ≠ []
  ∧ length (js "NONNO") = length (js "ANNOT")
  ∧ ∃ res : list label,
      api_guess latin1UpperCase (Some (js "NONNO")) (Some (js "ANNOT"))
      = Status200 res (js "NONNO")
      ∧ credited 78 (js "NONNO") res = 2%nat.
Proof.
  assert (js "NONNO" ≠ []) as H1 by discriminate.
  assert (js "ANNOT" ≠ []) as H2 by discriminate.
  assert (length (js "NONNO") = length (js "ANNOT")) as H3 by reflexivity.
  do 3 (split; [assumption|]).
  exact (api_guess_credited_min latin1UpperCase _ _ 78%N H1 H2 H3).
Defined.

Lemma api_guess_absent_everywhere_witness :
  js "robot" ≠ [] ∧ js "libro" ≠ []
  ∧ length (js "robot") = length (js "libro")
  ∧ 84%N ∈ js "ROBOT"
  ∧ ∃ res : list label,
      api_guess latin1UpperCase (Some (js "robot")) (Some (js "libro"))
      = Status200 res (js "ROBOT")
      ∧ ((∀ i : nat, js "ROBOT" !! i = Some 84%N → res !! i = Some absent)
         ↔ 84%N ∉ js "LIBRO").
Proof.
  assert (js "robot" ≠ []) as H1 by discriminate.
  assert (js "libro" ≠ []) as H2 by discriminate.
  assert (length (js "robot") = length (js "libro")) as H3 by reflexivity.
  assert (84%N ∈ toUpperCase latin1UpperCase (js "robot")) as H4
    by (apply (list_elem_of_lookup_2 _ 4); reflexivity).
  do 3 (split; [assumption|]). split; [exact H4|].
  exact (api_guess_absent_everywhere latin1UpperCase _ _ 84%N H1 H2 H3 H4).
Defined.

Lemma api_guess_present_sound_witness :
  js "robot" ≠ [] ∧ js "libro" ≠ []
  ∧ length (js "robot") = length (js "libro")
  ∧ ∃ res : list label,
      api_guess latin1UpperCase (Some (js "robot")) (Some (js "libro"))
      = Status200 res (js "ROBOT")
      ∧ ∀ (i : nat) (c : N),
          js "ROBOT" !! i = Some c → res !! i = Some present →
          c ∈ js "LIBRO" ∧ js "LIBRO" !! i ≠ Some c.
Proof.
  assert (js "robot" ≠ []) as H1 by discriminate.
  assert (js "libro" ≠ []) as H2 by discriminate.
  assert (length (js "robot") = length (js "libro")) as H3 by reflexivity.
  do 3 (split; [assumption|]).
  exact (api_guess_present_sound latin1UpperCase _ _ H1 H2 H3).
Defined.

Lemma api_guess_win_iff_witness :
  js "libro" ≠ [] ∧ js "LIBRO" ≠ []
  ∧ length (js "libro") = length (js "LIBRO")
  ∧ ∃ res : list label,
      api_guess latin1UpperCase (Some (js "libro")) (Some (js "LIBRO"))
      = Status200 res (js "LIBRO")
      ∧ (haVinto res = true ↔ js "LIBRO" `prefix_of` js "LIBRO")
      ∧ (length (js "LIBRO") = length (js "LIBRO") →
         haVinto res = true ↔ js "LIBRO" = js "LIBRO").
Proof.
  assert (js "libro" ≠ []) as H1 by discriminate.
  assert (js "LIBRO" ≠ []) as H2 by discriminate.
  assert (length (js "libro") = length (js "LIBRO")) as H3 by reflexivity.
  do 3 (split; [assumption|]).
  exact (api_guess_win_iff latin1UpperCase _ _ H1 H2 H3).
Defined.

Lemma aggiornaTastiera_round_witness :
  js "robot" ≠ [] ∧ js "libro" ≠ []
  ∧ length (js "robot") = length (js "libro")
  ∧ 84%N ∈ js "ROBOT"
  ∧ ∃ res : list label,
      api_guess latin1UpperCase (Some (js "robot")) (Some (js "libro"))
      = Status200 res (js "ROBOT")
      ∧ (84%N ∉ js "LIBRO" →
         aggiornaTastiera (js "ROBOT") res (∅ : gmap (option N) label) !! Some 84%N
         = Some (default absent ((∅ : gmap (option N) label) !! Some 84%N)))
      ∧ (84%N ∈ js "LIBRO" →
         2 ≤ rango (aggiornaTastiera (js "ROBOT") res (∅ : gmap (option N) label) !! Some 84%N)).
Proof.
  assert (js "robot" ≠ []) as H1 by discriminate.
  assert (js "libro" ≠ []) as H2 by discriminate.
  assert (length (js "robot") = length (js "libro")) as H3 by reflexivity.
  assert (84%N ∈ toUpperCase latin1UpperCase (js "robot")) as H4
    by (apply (list_elem_of_lookup_2 _ 4); reflexivity).
  do 3 (split; [assumption|]). split; [exact H4|].
  exact (aggiornaTastiera_round latin1UpperCase _ _ 84%N (∅ : gmap (option N) label) H1 H2 H3 H4).
Defined.

Lemma api_leaderboard_sorted_witness :
  (0 < 1)%nat
  ∧ api_leaderboard (Some 10) [partita_anna; partita_bruno; partita_carla]
      !! 0%nat = Some partita_bruno
  ∧ api_leaderboard (Some 10) [partita_anna; partita_bruno; partita_carla]
      !! 1%nat = Some partita_anna
  ∧ (attempts partita_bruno < attempts partita_anna
     ∨ (attempts partita_bruno = attempts partita_anna
        ∧ time partita_bruno ≤ time partita_anna)).
Proof.
  assert (0 < 1)%nat as H1 by lia.
  assert (api_leaderboard (Some 10)
            [partita_anna; partita_bruno; partita_carla] !! 0%nat
          = Some partita_bruno) as H2 by reflexivity.
  assert (api_leaderboard (Some 10)
            [partita_anna; partita_bruno; partita_carla] !! 1%nat
          = Some partita_anna) as H3 by reflexivity.
  do 3 (split; [assumption|]).
  exact (api_leaderboard_sorted _ _ _ _ _ _ H1 H2 H3).
Defined.

Lemma api_results_saved_witness :
  js "  Dora " ≠ [] ∧ js "LIBRO" ≠ []
  ∧ ∃ (msg : string) (newRecord : record),
      api_results 4000 (js "2024-05-02") (Some (js "  Dora "))
        (Some (js "LIBRO")) (Some 0) (Some 0) (Some 5) (Some true)
        [partita_anna]
      = (Results201 msg newRecord, [partita_anna] ++ [newRecord])
      ∧ attempts newRecord = 0 ∧ time newRecord = 0
      ∧ won newRecord = Some true ∧ word newRecord = js "LIBRO"
      ∧ (∃ l r, js "  Dora " = l ++ player newRecord ++ r
                ∧ Forall (λ c, isWhiteSpace c = true) l
                ∧ Forall (λ c, isWhiteSpace c = true) r)
      ∧ (∀ c, head (player newRecord) = Some c → isWhiteSpace c = false)
      ∧ (∀ c, last (player newRecord) = Some c → isWhiteSpace c = false).
Proof.
  assert (js "  Dora " ≠ []) as H1 by discriminate.
  assert (js "LIBRO" ≠ []) as H2 by discriminate.
  do 2 (split; [assumption|]).
  exact (api_results_saved 4000 (js "2024-05-02") _ _ 0 0 (Some 5)
           (Some true) [partita_anna] H1 H2).
Defined.

Lemma api_results_blank_player_witness :
  js "   " ≠ [] ∧ Forall (λ c, isWhiteSpace c = true) (js "   ")
  ∧ js "LIBRO" ≠ []
  ∧ ∃ (msg : string) (newRecord : record),
      api_results 4000 (js "2024-05-02") (Some (js "   "))
        (Some (js "LIBRO")) (Some 3) (Some 80) (Some 5) (Some true) []
      = (Results201 msg newRecord, [] ++ [newRecord])
      ∧ player newRecord = [].
Proof.
  assert (js "   " ≠ []) as H1 by discriminate.
  assert (Forall (λ c, isWhiteSpace c = true) (js "   ")) as H2
    by (repeat constructor).
  assert (js "LIBRO" ≠ []) as H3 by discriminate.
  do 3 (split; [assumption|]).
  exact (api_results_blank_player 4000 (js "2024-05-02") _ _ 3 80 (Some 5)
           (Some true) [] H1 H2 H3).
Defined.

Lemma api_results_lost_game_witness :
  Some false ≠ Some true
  ∧ api_leaderboard None
      (api_results 4000 (js "2024-05-02") (Some (js "Dora"))
         (Some (js "LIBRO")) (Some 6) (Some 200) (Some 5) (Some false)
         [partita_anna; partita_bruno]).2
    = api_leaderboard None [partita_anna; partita_bruno].
Proof.
  assert (Some false ≠ Some true) as H1 by discriminate.
  split; [assumption|].
  exact (api_results_lost_game 4000 (js "2024-05-02") (Some (js "Dora"))
           (Some (js "LIBRO")) (Some 6) (Some 200) (Some 5) (Some false)
           [partita_anna; partita_bruno] None H1).
Defined.

Lemma api_results_won_game_witness :
  js "Dora" ≠ [] ∧ js "LIBRO" ≠ []
  ∧ Z.of_nat (length (filter (λ r, won r = Some true)
                        [partita_anna; partita_bruno; partita_carla])) < 20
  ∧ ∃ (msg : string) (newRecord : record),
      (api_results 4000 (js "2024-05-02") (Some (js "Dora"))
         (Some (js "LIBRO")) (Some 2) (Some 60) (Some 5) (Some true)
         [partita_anna; partita_bruno; partita_carla]).1
      = Results201 msg newRecord
      ∧ newRecord
        ∈ api_leaderboard (Some 20)
            (api_results 4000 (js "2024-05-02") (Some (js "Dora"))
               (Some (js "LIBRO")) (Some 2) (Some 60) (Some 5) (Some true)
               [partita_anna; partita_bruno; partita_carla]).2
      ∧ api_leaderboard (Some 20)
          (api_results 4000 (js "2024-05-02") (Some (js "Dora"))
             (Some (js "LIBRO")) (Some 2) (Some 60) (Some 5) (Some true)
             [partita_anna; partita_bruno; partita_carla]).2
        ≡ₚ newRecord
           :: api_leaderboard (Some 20)
                [partita_anna; partita_bruno; partita_carla].
Proof.
  assert (js "Dora" ≠ []) as H1 by discriminate.
  assert (js "LIBRO" ≠ []) as H2 by discriminate.
  assert (Z.of_nat (length (filter (λ r, won r = Some true)
                      [partita_anna; partita_bruno; partita_carla])) < 20)
    as H3 by (vm_compute; reflexivity).
  do 3 (split; [assumption|]).
  exact (api_results_won_game 4000 (js "2024-05-02") _ _ 2 60 (Some 5)
           [partita_anna; partita_bruno; partita_carla] 20 H1 H2 H3).
Defined.

Lemma getWords_lines_witness :
  0 < 5
  ∧ Forall (λ c, isWhiteSpace c = true) [13%N] ∧ (10%N ∉ [13%N])
  ∧ Forall (λ w, Z.of_nat (length w) = 5
                 ∧ Forall (λ c, isAscii c = true ∧ isWhiteSpace c = false) w)
      [js "carta"; js "libro"]
  ∧ getWords latin1UpperCase 5 file_parole = [js "CARTA"; js "LIBRO"].
Proof.
  assert (0 < 5) as H1 by lia.
  assert (Forall (λ c, isWhiteSpace c = true) [13%N]) as H2
    by (repeat constructor).
  assert (10%N ∉ [13%N]) as H3
    by (intros H; apply list_elem_of_singleton in H; discriminate H).
  assert (Forall (λ w, Z.of_nat (length w) = 5
                       ∧ Forall (λ c, isAscii c = true
                                      ∧ isWhiteSpace c = false) w)
            [js "carta"; js "libro"]) as H4
    by (repeat constructor).
  do 4 (split; [assumption|]).
  exact (getWords_lines latin1UpperCase 5 [js "carta"; js "libro"] [13%N]
           H1 H2 H3 H4).
Defined.

Lemma api_word_reply_witness :
  api_word latin1UpperCase (Some 5) (λ _, Some file_parole) 1
  = Word200 (js "LIBRO") 5
  ∧ ∃ (d : Z) (content : list N),
      Some 5 = Some d ∧ (d = 5 ∨ d = 6 ∨ d = 8)
      ∧ (λ _ : Z, Some file_parole) d = Some content
      ∧ getWords latin1UpperCase d content !! 1%nat = Some (js "LIBRO")
      ∧ Z.of_nat (length (js "LIBRO")) = d
      ∧ 5%nat = length (js "LIBRO").
Proof.
  assert (api_word latin1UpperCase (Some 5) (λ _, Some file_parole) 1
          = Word200 (js "LIBRO") 5) as H1 by reflexivity.
  split; [assumption|].
  exact (api_word_reply latin1UpperCase (Some 5) (λ _, Some file_parole) 1
           (js "LIBRO") 5 H1).
Defined.

Lemma gestisciTasto_riga_valida_witness :
  (∀ r c, costruisciGriglia (maxTentativi partita_due_lettere)
            (difficolta partita_due_lettere) r c = true →
          costruisciGriglia 6 5 r c = true)
  ∧ riga_valida partita_due_lettere
  ∧ riga_valida
      (gestisciTasto (costruisciGriglia 6 5) partita_due_lettere (js "B")).1.
Proof.
  assert (∀ r c, costruisciGriglia (maxTentativi partita_due_lettere)
                   (difficolta partita_due_lettere) r c = true →
                 costruisciGriglia 6 5 r c = true) as H1
    by (intros r c H; exact H).
  assert (riga_valida partita_due_lettere) as H2.
  { split; [reflexivity|]. split; [cbn; lia|].
    split; [repeat constructor|]. intros _. cbn. lia. }
  do 2 (split; [assumption|]).
  exact (gestisciTasto_riga_valida (costruisciGriglia 6 5)
           partita_due_lettere (js "B") H1 H2).
Defined.

Lemma cancellaLettera_aggiungiLettera_witness :
  costruisciGriglia 6 5 (rigaCorrente partita_due_lettere)
    (colonnaCorrente partita_due_lettere) = true
  ∧ (colonnaCorrente partita_due_lettere
     < difficolta partita_due_lettere)%nat
  ∧ cancellaLettera
      (aggiungiLettera (costruisciGriglia 6 5) partita_due_lettere (js "B"))
    = partita_due_lettere.
Proof.
  assert (costruisciGriglia 6 5 (rigaCorrente partita_due_lettere)
            (colonnaCorrente partita_due_lettere) = true) as H1
    by reflexivity.
  assert (colonnaCorrente partita_due_lettere
          < difficolta partita_due_lettere)%nat as H2 by (cbn; lia).
  do 2 (split; [assumption|]).
  exact (cancellaLettera_aggiungiLettera (costruisciGriglia 6 5)
           partita_due_lettere (js "B") H1 H2).
Defined.

Lemma inviaTentativo_accettato_witness :
  riga_valida partita_in_corso
  ∧ length (parolaSegreta partita_in_corso) = difficolta partita_in_corso
  ∧ (0 < difficolta partita_in_corso)%nat
  ∧ gestisciTasto (costruisciGriglia 6 5) partita_in_corso tasto_invio
    = (partita_in_corso, Some (js "ROBOT", js "LIBRO"))
  ∧ partita_in_corso = partita_in_corso
  ∧ js "LIBRO" = parolaSegreta partita_in_corso
  ∧ js "ROBOT" = concat (tentativo partita_in_corso)
  ∧ ∃ res : list label,
      api_guess latin1UpperCase (Some (js "ROBOT")) (Some (js "LIBRO"))
      = Status200 res (js "ROBOT")
      ∧ length res = difficolta partita_in_corso.
Proof.
  assert (riga_valida partita_in_corso) as H1.
  { split; [reflexivity|]. split; [cbn; lia|].
    split; [repeat constructor|]. intros _. cbn. lia. }
  assert (length (parolaSegreta partita_in_corso)
          = difficolta partita_in_corso) as H2 by reflexivity.
  assert (0 < difficolta partita_in_corso)%nat as H3 by (cbn; lia).
  assert (gestisciTasto (costruisciGriglia 6 5) partita_in_corso tasto_invio
          = (partita_in_corso, Some (js "ROBOT", js "LIBRO"))) as H4
    by reflexivity.
  do 4 (split; [assumption|]).
  exact (inviaTentativo_accettato latin1UpperCase (costruisciGriglia 6 5)
           partita_in_corso partita_in_corso (js "ROBOT") (js "LIBRO")
           H1 H2 H3 H4).
Defined.
